(** * Two UI components of the desktop client, and what their code guarantees

    - [AddExistingRepository]: the "add local repository" dialog, with its
      request-token guard around the asynchronous repository check.
    - [AuthorInput]: the co-author input built on a CodeMirror document,
      with the hint-range scan, the placeholder synchronisation and the
      trigger of the suggestion list.

    Definitions come first and follow the TypeScript sources function by
    function; the theorems about them follow. *)

From Stdlib Require Import ZArith Bool List Ascii String Lia.
From stdpp Require Import base option list.
Import ListNotations.

Local Open Scope Z_scope.

(* ===================================================================== *)
(** * Part I. The add-existing-repository dialog                          *)
(* ===================================================================== *)

Module AddExistingRepository.

(** [IAddExistingRepositoryState]: [boolean | null] is [option bool],
    with [None] for [null] (the check is pending). *)
Record IAddExistingRepositoryState := mkState {
  path : string;
  isGitRepository : option bool;
}.

(** A suspended call of [checkIfPathIsRepository]: it sits at its [await],
    holding the local [token] and the argument it gave to the external
    [isGitRepository] predicate. *)
Record PendingCheck := mkPending {
  pendingToken : Z;
  pendingPath : string;
}.

(** The component instance: the React state, the private field
    [checkGitRepositoryToken], and the calls of [checkIfPathIsRepository]
    that have not resumed yet.  The token is a JavaScript number that starts
    at 0 and only ever receives [++]: every value it takes in practice is an
    integer that a double holds exactly, and it is kept as an integer. *)
Record Component := mkComponent {
  state : IAddExistingRepositoryState;
  checkGitRepositoryToken : Z;
  suspended : list PendingCheck;
}.

(** [constructor]: [this.state = { path: '', isGitRepository: false }],
    field initialiser [checkGitRepositoryToken = 0]. *)
Definition constructor : Component :=
  {| state := {| path := EmptyString; isGitRepository := Some false |};
     checkGitRepositoryToken := 0;
     suspended := [] |}.

(** JavaScript truthiness of a [boolean | null]. *)
Definition truthy (b : option bool) : bool :=
  match b with Some true => true | _ => false end.

(** What [render] hands to the widgets that depend on the state. *)
Record View := mkView {
  textBoxValue : string;
  warningShown : bool;
  submitDisabled : bool;
}.

(** [renderWarning]: [null] when [!this.state.path.length || isRepo]. *)
Definition renderWarning (s : IAddExistingRepositoryState) : bool :=
  let isRepo := isGitRepository s in
  if (String.length (path s) =? 0)%nat || truthy isRepo then false else true.

(** [render]: [disabled = path.length === 0 || isGitRepository === null]. *)
Definition render (s : IAddExistingRepositoryState) : View :=
  let disabled :=
    (String.length (path s) =? 0)%nat
    || match isGitRepository s with None => true | Some _ => false end in
  {| textBoxValue := path s;
     warningShown := renderWarning s;
     submitDisabled := disabled |}.

(** The external [untildify] package, which the component only calls. *)
Class Environment := { untildify : string -> string }.

(** An environment for the examples: the home directory replaces a leading
    tilde that ends the path or stands before a separator. *)
Definition untildifyWith (home p : string) : string :=
  match p with
  | String "~"%char EmptyString => home
  | String "~"%char (String "/"%char _ as rest) => home ++ rest
  | String "~"%char (String "\"%char _ as rest) => home ++ rest
  | _ => p
  end.

Definition exampleEnvironment : Environment :=
  {| untildify := untildifyWith "/home/ada" |}.

Section WithEnvironment.

Context `{env : Environment}.

(** [resolvedPath]. *)
Definition resolvedPath (p : string) : string := untildify p.

(** [checkIfPathIsRepository], up to its [await]: the state is set, the
    token is pre-incremented and captured, and the predicate is called on
    the resolved path. *)
Definition checkIfPathIsRepository (p : string) (c : Component) : Component :=
  let st := {| path := p; isGitRepository := None |} in
  let token := checkGitRepositoryToken c + 1 in
  {| state := st;
     checkGitRepositoryToken := token;
     suspended := {| pendingToken := token; pendingPath := resolvedPath p |}
                    :: suspended c |}.

(** [checkIfPathIsRepository], after its [await] delivered [isRepo] to the
    call that captured [token]. *)
Definition checkResumed (token : Z) (isRepo : bool) (c : Component)
  : IAddExistingRepositoryState :=
  if negb (token =? checkGitRepositoryToken c) then state c
  else {| path := path (state c); isGitRepository := Some isRepo |}.

(** [onPathChanged]: the event carries the text box's value. *)
Definition onPathChanged (value : string) (c : Component) : Component :=
  checkIfPathIsRepository value c.

(** [showFilePicker], given what [showOpenDialog] returned ([None] for a
    falsy result).  [directory[0]] of an empty array is [undefined], which
    is no [string]: the embedding stops there ([None]). *)
Definition showFilePicker (directory : option (list string)) (c : Component)
  : option Component :=
  match directory with
  | None => Some c
  | Some dirs =>
      match dirs !! 0%nat with
      | Some p => Some (checkIfPathIsRepository p c)
      | None => None
      end
  end.

(** ** The component as a transition system *)

Inductive Event :=
| PathChanged (value : string)
| FilePicker (directory : option (list string))
| CheckResolved (token : Z) (isRepo : bool)
| CheckRejected (token : Z).

(** Takes the first suspended call holding [token] out of the list. *)
Fixpoint resume (token : Z) (l : list PendingCheck)
  : option (PendingCheck * list PendingCheck) :=
  match l with
  | [] => None
  | k :: l' =>
      if pendingToken k =? token then Some (k, l')
      else match resume token l' with
           | Some (k', r) => Some (k', k :: r)
           | None => None
           end
  end.

(** One event.  A promise settles only for a call that is suspended on
    it, and settles once.  A rejected [await] throws inside the async
    function: nothing after it runs, and nothing catches it. *)
Definition fire (ev : Event) (c : Component) : option Component :=
  match ev with
  | PathChanged value => Some (onPathChanged value c)
  | FilePicker directory => showFilePicker directory c
  | CheckResolved token isRepo =>
      match resume token (suspended c) with
      | Some (_, rest) =>
          Some {| state := checkResumed token isRepo c;
                  checkGitRepositoryToken := checkGitRepositoryToken c;
                  suspended := rest |}
      | None => None
      end
  | CheckRejected token =>
      match resume token (suspended c) with
      | Some (_, rest) =>
          Some {| state := state c;
                  checkGitRepositoryToken := checkGitRepositoryToken c;
                  suspended := rest |}
      | None => None
      end
  end.

(** Histories list the newest event first. *)
Inductive reachable : list Event -> Component -> Prop :=
| reach_constructor : reachable [] constructor
| reach_fire h c ev c' :
    reachable h c -> fire ev c = Some c' -> reachable (ev :: h) c'.

(** Runs a history (oldest event last in the list). *)
Fixpoint run (h : list Event) : option Component :=
  match h with
  | [] => Some constructor
  | ev :: h' => match run h' with
                | Some c => fire ev c
                | None => None
                end
  end.

(** The path an event asks to be checked, if it starts a check. *)
Definition issuedPath (ev : Event) : option string :=
  match ev with
  | PathChanged value => Some value
  | FilePicker (Some dirs) => dirs !! 0%nat
  | _ => None
  end.

(** Number of checks a history has issued. *)
Fixpoint issued (h : list Event) : nat :=
  match h with
  | [] => 0%nat
  | ev :: h' => match issuedPath ev with
                | Some _ => S (issued h')
                | None => issued h'
                end
  end.

(** The path of the most recently issued check. *)
Fixpoint latestPath (h : list Event) : option string :=
  match h with
  | [] => None
  | ev :: h' => match issuedPath ev with
                | Some p => Some p
                | None => latestPath h'
                end
  end.

(** What every reachable component satisfies, in terms of its history:
    the token counts the checks issued; the calls still suspended hold
    distinct tokens that were issued; a check that resolved was issued and
    is suspended no more; and the state shows the path of the latest check
    together with the verdict that check delivered, if it delivered one. *)
Record consistent (h : list Event) (c : Component) : Prop := mkConsistent {
  token_counts : checkGitRepositoryToken c = Z.of_nat (issued h);
  suspended_range :
    forall k, k ∈ suspended c -> 1 <= pendingToken k <= checkGitRepositoryToken c;
  suspended_once : NoDup (pendingToken <$> suspended c);
  resolved_range :
    forall t b, CheckResolved t b ∈ h -> 1 <= t <= checkGitRepositoryToken c;
  resolved_gone :
    forall t b, CheckResolved t b ∈ h -> t ∉ (pendingToken <$> suspended c);
  shown_latest :
    match latestPath h with
    | None => state c = state constructor
    | Some p =>
        path (state c) = p /\
        forall b, isGitRepository (state c) = Some b
                  <-> CheckResolved (checkGitRepositoryToken c) b ∈ h
    end;
}.

End WithEnvironment.

(** ** Worked histories (newest event first)

    Two checks overlap and the older one settles last. *)
Definition overtaken : list Event :=
  [CheckResolved 1 true; CheckResolved 2 false; PathChanged "~/b"; PathChanged "~/a"].

Definition overtakenComponent : Component :=
  {| state := {| path := "~/b"; isGitRepository := Some false |};
     checkGitRepositoryToken := 2;
     suspended := [] |}.

(** The newer check has resolved with [true]; the older one is still
    suspended. *)
Definition newerResolved : list Event :=
  [CheckResolved 2 true; PathChanged "~/b"; PathChanged "~/a"].

Definition olderCheck : PendingCheck :=
  {| pendingToken := 1; pendingPath := "/home/ada/a" |}.

Definition newerResolvedComponent : Component :=
  {| state := {| path := "~/b"; isGitRepository := Some true |};
     checkGitRepositoryToken := 2;
     suspended := [olderCheck] |}.

(** One check, still in flight. *)
Definition inFlight : list Event := [PathChanged "~/a"].

Definition inFlightComponent : Component :=
  {| state := {| path := "~/a"; isGitRepository := None |};
     checkGitRepositoryToken := 1;
     suspended := [{| pendingToken := 1; pendingPath := "/home/ada/a" |}] |}.

(** ** Completions, counted and run in sequence *)

(** Whether an event is the completion of a check. *)
Definition isCompletion (ev : Event) : bool :=
  match ev with
  | CheckResolved _ _ | CheckRejected _ => true
  | _ => false
  end.


Section Sequences.

Context `{env : Environment}.

(** Fires the events in the order of the list. *)
Fixpoint fireAll (evs : list Event) (c : Component) : option Component :=
  match evs with
  | [] => Some c
  | ev :: evs' => match fire ev c with
                  | Some c' => fireAll evs' c'
                  | None => None
                  end
  end.

End Sequences.

(** ** Submitting *)

Section Submit.

Context `{env : Environment}.

(** The records the dispatcher returns. *)
Variable Repository : Type.

(** What leaves the component towards the dispatcher and the parent. *)
Inductive Effect :=
| AddRepositories (paths : list string)
| SelectRepository (r : Repository)
| Dismissed.

(** How the promise of [dispatcher.addRepositories] settles; a falsy
    value is [Returned None]. *)
Inductive Reply :=
| Returned (repositories : option (list Repository))
| Failed.

(** [addRepository]: the effects, in order. *)
Definition addRepository (s : IAddExistingRepositoryState) (reply : Reply)
  : list Effect :=
  let resolved := resolvedPath (path s) in
  AddRepositories [resolved] ::
  match reply with
  | Failed => []
  | Returned repositories =>
      match repositories with
      | Some (repository :: _) => [SelectRepository repository]
      | _ => []
      end ++ [Dismissed]
  end.

End Submit.

Arguments AddRepositories {Repository} paths.
Arguments SelectRepository {Repository} r.
Arguments Dismissed {Repository}.
Arguments Returned {Repository} repositories.
Arguments Failed {Repository}.

End AddExistingRepository.

(* ===================================================================== *)
(** * Part II. The author input                                           *)
(* ===================================================================== *)

Module AuthorInput.

(** ** JavaScript values the component handles *)

(** A string is its sequence of UTF-16 code units. *)
Abbreviation jsstring := (list Z).

(** The code units of an ASCII literal. *)
Definition units (s : string) : jsstring :=
  map (fun a => Z.of_N (Ascii.N_of_ascii a)) (list_ascii_of_string s).

Definition strlen (s : jsstring) : Z := Z.of_nat (length s).

(** [s.charAt(i)]: [None] stands for the empty string an index outside the
    string yields. *)
Definition charAt (s : jsstring) (i : Z) : option Z :=
  if i <? 0 then None else s !! Z.to_nat i.

(** [/\s/.test(c)] on the result of [charAt]: the white space and line
    terminator code units of ECMAScript (U+180E, which older engines also
    counted, is left out). *)
Definition isWhitespace (c : option Z) : bool :=
  match c with
  | None => false
  | Some u =>
      ((9 <=? u) && (u <=? 13)) || (u =? 32) || (u =? 160) || (u =? 5760)
      || ((8192 <=? u) && (u <=? 8202)) || (u =? 8232) || (u =? 8233)
      || (u =? 8239) || (u =? 8287) || (u =? 12288) || (u =? 65279)
  end.

(** How a piece of JavaScript ends when it ends: with a value, or by
    throwing (here always a [TypeError] on [undefined]). *)
Inductive Completion (A : Type) :=
| Normal (a : A)
| Throw.

Arguments Normal {A} a.
Arguments Throw {A}.

(** Sequencing, written [x ← m; k]: a throw skips what follows. *)
#[global] Instance Completion_bind : MBind Completion :=
  fun A B (k : A -> Completion B) (m : Completion A) =>
    match m with
    | Normal a => k a
    | Throw => Throw
    end.

(** ** The CodeMirror document, as far as the component uses it

    CodeMirror is a third-party widget, not part of the repository.  The
    operations below are transcribed from its manual and from the
    implementation of [Doc] in CodeMirror 5 ([clipPos], [clipToLen],
    [posFromIndex], [indexFromPos], [findMarksAt], [getBetween],
    [getRange], [somethingSelected], [getCursor]), for a document whose
    first line has number 0 and whose line separator has length 1. *)

(** [CodeMirror.Position]. *)
Record Position := Pos { line : Z; ch : Z }.

(** [ActualTextMarker]: [find] is what [find()] returns ([None] for
    [undefined], the marker is no longer in the document); [collapsed] is the
    optional property of [TextMarkerOptions] ([None] while it was never
    set). *)
Record ActualTextMarker := mkMarker {
  className : string;
  find : option (Position * Position);
  collapsed : option bool;
}.

(** A document has at least one line.  [markers] holds the marker objects
    created on it; the component refers to them by their place in it. *)
Record Doc := mkDoc {
  firstLine : jsstring;
  moreLines : list jsstring;
  markers : list ActualTextMarker;
}.

Definition lines (d : Doc) : list jsstring := firstLine d :: moreLines d.

(** [doc.size]. *)
Definition size (d : Doc) : Z := Z.of_nat (length (lines d)).

(** [doc.getLine(n)], [None] for [undefined]. *)
Definition getLine (d : Doc) (n : Z) : option jsstring :=
  if n <? 0 then None else lines d !! Z.to_nat n.

(** Length of line [n], for the line numbers [clipPos] asks about. *)
Definition lineLength (d : Doc) (n : Z) : Z :=
  match getLine d n with
  | Some l => strlen l
  | None => 0
  end.

(** [clipToLen]. *)
Definition clipToLen (pos : Position) (linelen : Z) : Position :=
  if ch pos >? linelen then Pos (line pos) linelen
  else if ch pos <? 0 then Pos (line pos) 0
  else pos.

(** [clipPos]. *)
Definition clipPos (d : Doc) (pos : Position) : Position :=
  if line pos <? 0 then Pos 0 0
  else
    let last := size d - 1 in
    if line pos >? last then Pos last (lineLength d last)
    else clipToLen pos (lineLength d (line pos)).

(** The iteration of [posFromIndex] over the lines: the line reached and,
    when a line holds the offset, the column. *)
Fixpoint posFromIndexIter (ls : list jsstring) (lineNo off : Z) : Z * option Z :=
  match ls with
  | [] => (lineNo, None)
  | l :: ls' =>
      let sz := strlen l + 1 in
      if sz >? off then (lineNo, Some off)
      else posFromIndexIter ls' (lineNo + 1) (off - sz)
  end.

(** [doc.posFromIndex(off)].  When no line holds the offset the column is
    [undefined] and the line is past the last one, which [clipPos] replaces
    by the end of the document whatever the column. *)
Definition posFromIndex (d : Doc) (off : Z) : Position :=
  match posFromIndexIter (lines d) 0 off with
  | (lineNo, Some c) => clipPos d (Pos lineNo c)
  | (lineNo, None) => clipPos d (Pos lineNo 0)
  end.

(** Sum of [text.length + sepSize] over the first [n] lines. *)
Fixpoint offsetOfLine (ls : list jsstring) (n : nat) : Z :=
  match n, ls with
  | S n', l :: ls' => strlen l + 1 + offsetOfLine ls' n'
  | _, _ => 0
  end.

(** [doc.indexFromPos(coords)]. *)
Definition indexFromPos (d : Doc) (coords : Position) : Z :=
  let coords := clipPos d coords in
  let index := ch coords in
  if (line coords <? 0) || (ch coords <? 0) then 0
  else index + offsetOfLine (lines d) (Z.to_nat (line coords)).

(** The index of the end of the document: every line but the last is
    followed by a separator. *)
Definition docEnd (d : Doc) : Z := offsetOfLine (lines d) (length (lines d)) - 1.

(** The positions of the document: an existing line, a column on it or at
    its end. *)
Definition validPos (d : Doc) (p : Position) : Prop :=
  exists l, lines d !! Z.to_nat (line p) = Some l /\ 0 <= line p /\ 0 <= ch p <= strlen l.

(** Order of positions ([CodeMirror.cmpPos]). *)
Definition posLe (a b : Position) : bool :=
  (line a <? line b) || ((line a =? line b) && (ch a <=? ch b)).

(** [doc.findMarksAt(pos)]: the markers present at the position, both ends
    of a marked range included. *)
Definition findMarksAt (d : Doc) (pos : Position) : list ActualTextMarker :=
  let pos := clipPos d pos in
  List.filter (fun m => match find m with
                        | Some (from, to) => posLe from pos && posLe pos to
                        | None => false
                        end) (markers d).

(** [text.slice(a)] and [text.slice(0, b)] for the columns of clipped
    positions, which are never negative. *)
Definition sliceFrom (text : jsstring) (a : Z) : jsstring := drop (Z.to_nat a) text.

Definition sliceTo (text : jsstring) (b : Z) : jsstring := take (Z.to_nat b) text.

(** The callback of [getBetween], over the lines it is given, [n] counting
    them. *)
Fixpoint getBetweenIter (ls : list jsstring) (n : Z) (start stop : Position)
  : list jsstring :=
  match ls with
  | [] => []
  | text :: ls' =>
      let text := if n =? line stop then sliceTo text (ch stop) else text in
      let text := if n =? line start then sliceFrom text (ch start) else text in
      text :: getBetweenIter ls' (n + 1) start stop
  end.

(** [getBetween(doc, start, end)]: the lines [start.line] to [end.line]. *)
Definition getBetween (d : Doc) (start stop : Position) : list jsstring :=
  let first := Z.to_nat (line start) in
  let count := Z.to_nat (line stop + 1 - line start) in
  getBetweenIter (take count (drop first (lines d))) (line start) start stop.

(** [lines.join("\n")]. *)
Fixpoint join (ls : list jsstring) : jsstring :=
  match ls with
  | [] => []
  | [l] => l
  | l :: ls' => l ++ 10 :: join ls'
  end.

(** [doc.getRange(from, to)]. *)
Definition getRange (d : Doc) (from to : Position) : jsstring :=
  join (getBetween d (clipPos d from) (clipPos d to)).

(** ** The functions of author-input.tsx *)

Definition previousPosition (d : Doc) (pos : Position) : Position :=
  posFromIndex d (indexFromPos d pos - 1).

Definition nextPosition (d : Doc) (pos : Position) : Position :=
  posFromIndex d (indexFromPos d pos + 1).

(** The [for (const mark of marks)] loop of [posIsInsideMarkedText];
    [markPos.from] throws when [mark.find()] is [undefined]. *)
Fixpoint insideSomeMark (d : Doc) (ix : Z) (marks : list ActualTextMarker)
  : Completion bool :=
  match marks with
  | [] => Normal false
  | mark :: marks' =>
      match find mark with
      | None => Throw
      | Some (markFrom, markTo) =>
          let from := indexFromPos d markFrom in
          let to := indexFromPos d markTo in
          if (ix >? from) && (ix <? to) then Normal true
          else insideSomeMark d ix marks'
      end
  end.

Definition posIsInsideMarkedText (d : Doc) (pos : Position) : Completion bool :=
  let marks := findMarksAt d pos in
  let ix := indexFromPos d pos in
  insideSomeMark d ix marks.

(** [line.charAt] throws when [doc.getLine] returned [undefined]. *)
Definition isMarkOrWhitespace (d : Doc) (pos : Position) : Completion bool :=
  match getLine d (line pos) with
  | None => Throw
  | Some l =>
      if isWhitespace (charAt l (ch pos)) then Normal true
      else posIsInsideMarkedText d pos
  end.

(** The first [while] loop of [getHintRangeFromCursor].  [fuel] bounds the
    number of tests of the condition; [None] means the loop is still running
    when the fuel is spent. *)
Fixpoint extendFrom (fuel : nat) (d : Doc) (from : Position)
  : option (Completion Position) :=
  match fuel with
  | O => None
  | S fuel' =>
      match isMarkOrWhitespace d (previousPosition d from) with
      | Throw => Some Throw
      | Normal true => Some (Normal from)
      | Normal false => extendFrom fuel' d (previousPosition d from)
      end
  end.

(** The second [while] loop. *)
Fixpoint extendTo (fuel : nat) (d : Doc) (to : Position)
  : option (Completion Position) :=
  match fuel with
  | O => None
  | S fuel' =>
      match isMarkOrWhitespace d (nextPosition d to) with
      | Throw => Some Throw
      | Normal true => Some (Normal to)
      | Normal false => extendTo fuel' d (nextPosition d to)
      end
  end.

Record HintRange := mkRange { from : Position; to : Position }.

(** A number of tests of each loop condition that is enough whenever any
    is: one for each index of the document, and one more. *)
Definition scanBound (d : Doc) : nat := S (Z.to_nat (docEnd d)).

Definition getHintRangeFromCursor (fuel : nat) (d : Doc) (cursor : Position)
  : option (Completion HintRange) :=
  match extendFrom fuel d cursor with
  | None => None
  | Some Throw => Some Throw
  | Some (Normal from) =>
      match extendTo fuel d cursor with
      | None => None
      | Some Throw => Some Throw
      | Some (Normal to) => Some (Normal {| from := from; to := to |})
      end
  end.

(** ** The component and its editor event handlers *)

(** A selection range of the editor. *)
Record Range := mkSel { anchor : Position; head : Position }.

(** The fields of [AuthorInput] the handlers read and write, with the state
    of the editor they are registered on: its document and its selection
    (the primary range and the others).  [label] and [placeholder] are
    [null] or refer to a marker object of the document. *)
Record AuthorInput := mkAuthorInput {
  doc : Doc;
  primary : Range;
  secondary : list Range;
  hintActive : bool;
  label : option nat;
  placeholder : option nat;
}.

(** [range.empty()]. *)
Definition rangeEmpty (r : Range) : bool :=
  (line (head r) =? line (anchor r)) && (ch (head r) =? ch (anchor r)).

(** [doc.somethingSelected()]. *)
Definition somethingSelected (a : AuthorInput) : bool :=
  existsb (fun r => negb (rangeEmpty r)) (primary a :: secondary a).

(** [doc.getCursor()]: the head of the primary range. *)
Definition getCursor (a : AuthorInput) : Position := head (primary a).

Definition jsstringEq (s t : jsstring) : bool := bool_decide (s = t).

(** The handlers of ['startCompletion'] and ['endCompletion']. *)
Definition onStartCompletion (a : AuthorInput) : AuthorInput :=
  {| doc := doc a; primary := primary a; secondary := secondary a;
     hintActive := true; label := label a; placeholder := placeholder a |}.

Definition onEndCompletion (a : AuthorInput) : AuthorInput :=
  {| doc := doc a; primary := primary a; secondary := secondary a;
     hintActive := false; label := label a; placeholder := placeholder a |}.

(** The handler of ['changes']; the result tells whether [showHint] was
    called. *)
Definition onChanges (a : AuthorInput) : Completion bool :=
  if negb (hintActive a) then
    let d := doc a in
    if somethingSelected a then Normal false
    else
      let cursor := getCursor a in
      let previousPos := previousPosition d cursor in
      inside ← posIsInsideMarkedText d previousPos;
      if inside : bool then Normal false
      else
        let char := getRange d previousPos cursor in
        if jsstringEq char (units "@") then Normal true else Normal false
  else Normal false.

(** [this.placeholder.collapsed = collapse] on the marker object. *)
Definition setCollapsed (collapse : bool) (m : ActualTextMarker) : ActualTextMarker :=
  {| className := className m; find := find m; collapsed := Some collapse |}.

Definition withMarkers (a : AuthorInput) (ms : list ActualTextMarker) : AuthorInput :=
  {| doc := {| firstLine := firstLine (doc a); moreLines := moreLines (doc a);
               markers := ms |};
     primary := primary a; secondary := secondary a;
     hintActive := hintActive a; label := label a; placeholder := placeholder a |}.

(** The handler of ['cursorActivity'].  A property read on the [undefined]
    that [find()] returns for a marker outside the document throws; so does,
    in this embedding, a reference to no marker object. *)
Definition onCursorActivity (a : AuthorInput) : Completion AuthorInput :=
  match label a, placeholder a with
  | Some l, Some p =>
      match markers (doc a) !! l, markers (doc a) !! p with
      | Some labelMarker, Some placeholderMarker =>
          match find labelMarker, find placeholderMarker with
          | Some labelRange, Some placeholderRange =>
              let d := doc a in
              let collapse :=
                negb (indexFromPos d (snd labelRange)
                      =? indexFromPos d (fst placeholderRange)) in
              if bool_decide (collapsed placeholderMarker <> Some collapse) then
                Normal (withMarkers a (<[p := setCollapsed collapse placeholderMarker]>
                                         (markers d)))
              else Normal a
          | _, _ => Throw
          end
      | _, _ => Throw
      end
  | _, _ => Normal a
  end.

(** ** Documents of the shape the component maintains

    [initializeCodeMirror] appends the text ['Co-Authors '] marked as the
    label and the text ['@username'] marked as the placeholder; what the user
    enters goes between the two. *)
Definition labelText : jsstring := units "Co-Authors ".

Definition placeholderText : jsstring := units "@username".

Definition authorDoc (body : jsstring) (handles : list ActualTextMarker) : Doc :=
  let a := strlen labelText in
  let b := a + strlen body in
  {| firstLine := labelText ++ body ++ placeholderText;
     moreLines := [];
     markers :=
       {| className := "label"; find := Some (Pos 0 0, Pos 0 a); collapsed := None |}
       :: {| className := "placeholder";
             find := Some (Pos 0 b, Pos 0 (b + strlen placeholderText));
             collapsed := None |}
       :: handles |}.

(** ** The [hint] option of the editor *)

(** A user record of the autocompletion provider. *)
Record IUserHit := mkHit { username : jsstring; name : jsstring }.

(** An [IAutocompletionProvider], with the answer of [instanceof
    UserAutocompletionProvider]; a rejected promise of
    [getAutocompletionItems] is a [Throw] at the [await]. *)
Record IAutocompletionProvider := mkProvider {
  kind : string;
  isUserAutocompletionProvider : bool;
  getAutocompletionItems : jsstring -> Completion (list IUserHit);
}.

(** An entry of the list [hint] returns; [render], [className] and [hint]
    are the same constants for every entry. *)
Record Hint := mkHint {
  text : jsstring;
  hintUsername : jsstring;
  hintName : jsstring;
}.

(** The object [hint] returns: [list] and the range [from], [to]. *)
Record Hints := mkHints { hintList : list Hint; hintRange : HintRange }.

(** [word.replace(/^@/, '')]. *)
Definition stripAt (word : jsstring) : jsstring :=
  match word with
  | 64 :: rest => rest
  | _ => word
  end.

(** [providers.find(p => p.kind === 'user')]. *)
Definition findUserProvider (providers : list IAutocompletionProvider)
  : option IAutocompletionProvider :=
  List.find (fun p => String.eqb (kind p) "user") providers.

(** The [hint] function of [hintOptions], for the providers of the props.
    [fuel] is that of the scan. *)
Definition hint (providers : list IAutocompletionProvider) (fuel : nat) (a : AuthorInput)
  : option (Completion Hints) :=
  let d := doc a in
  let cursor := getCursor a in
  match getHintRangeFromCursor fuel d cursor with
  | None => None
  | Some Throw => Some Throw
  | Some (Normal r) =>
      let word := getRange d (from r) (to r) in
      match findUserProvider providers with
      | Some provider =>
          if isUserAutocompletionProvider provider then
            let needle := stripAt word in
            match getAutocompletionItems provider needle with
            | Throw => Some Throw
            | Normal hits =>
                Some (Normal
                  {| hintList :=
                       map (fun h => {| text := 64 :: username h;
                                        hintUsername := username h;
                                        hintName := name h |}) hits;
                     hintRange := r |})
            end
          else Some (Normal {| hintList := []; hintRange := r |})
      | None => Some (Normal {| hintList := []; hintRange := r |})
      end
  end.

(** ** Resizing

    The fields and callbacks of [AuthorInput] around its [ResizeObserver]:
    whether [this.editor] is set, [this.resizeDebounceId], and the animation
    frames requested and not yet run or cancelled, with the id the browser
    hands out next. *)
Record Resizing := mkResizing {
  editorSet : bool;
  resizeDebounceId : option Z;
  frames : list Z;
  nextFrame : Z;
}.

(** What the callbacks ask of the browser and of the editor. *)
Inductive ResizeEffect :=
| CancelAnimationFrame (id : Z)
| RequestAnimationFrame (id : Z)
| Refresh.

(** The constructor: [editor = null], [resizeDebounceId = null]; no frame
    was requested. *)
Definition constructed : Resizing :=
  {| editorSet := false; resizeDebounceId := None; frames := []; nextFrame := 1 |}.

(** The callback given to [new ResizeObserver], for [entries.length]; the
    value [requestAnimationFrame] returns is dropped. *)
Definition onResizeObserved (entries : nat) (s : Resizing) : Resizing * list ResizeEffect :=
  if (1 <=? entries)%nat && editorSet s then
    let '(s1, cancelled) :=
      match resizeDebounceId s with
      | Some id =>
          ({| editorSet := editorSet s; resizeDebounceId := None;
              frames := List.filter (fun f => negb (f =? id)) (frames s);
              nextFrame := nextFrame s |},
           [CancelAnimationFrame id])
      | None => (s, [])
      end in
    ({| editorSet := editorSet s1; resizeDebounceId := resizeDebounceId s1;
        frames := frames s1 ++ [nextFrame s1];
        nextFrame := nextFrame s1 + 1 |},
     cancelled ++ [RequestAnimationFrame (nextFrame s1)])
  else (s, []).

(** [onResized]. *)
Definition onResized (s : Resizing) : Resizing * list ResizeEffect :=
  ({| editorSet := editorSet s; resizeDebounceId := None;
      frames := frames s; nextFrame := nextFrame s |},
   if editorSet s then [Refresh] else []).

(** [onContainerRef], as far as resizing goes: [elem] tells whether the
    element is given. *)
Definition onContainerRef (elem : bool) (s : Resizing) : Resizing :=
  {| editorSet := elem; resizeDebounceId := resizeDebounceId s;
     frames := frames s; nextFrame := nextFrame s |}.

Inductive ResizeEvent :=
| Observed (entries : nat)
| FrameRuns (id : Z)
| ContainerRef (elem : bool).

(** One event; a frame runs once, and only if it was requested and not
    cancelled. *)
Definition resizeStep (ev : ResizeEvent) (s : Resizing)
  : option (Resizing * list ResizeEffect) :=
  match ev with
  | Observed entries => Some (onResizeObserved entries s)
  | FrameRuns id =>
      if bool_decide (id ∈ frames s) then
        Some (onResized {| editorSet := editorSet s;
                           resizeDebounceId := resizeDebounceId s;
                           frames := List.filter (fun f => negb (f =? id)) (frames s);
                           nextFrame := nextFrame s |})
      else None
  | ContainerRef elem => Some (onContainerRef elem s, [])
  end.

(** Runs the events in the order of the list and collects the effects. *)
Fixpoint resizeRun (evs : list ResizeEvent) (s : Resizing)
  : option (Resizing * list ResizeEffect) :=
  match evs with
  | [] => Some (s, [])
  | ev :: evs' =>
      match resizeStep ev s with
      | Some (s1, effects) =>
          match resizeRun evs' s1 with
          | Some (s2, more) => Some (s2, effects ++ more)
          | None => None
          end
      | None => None
      end
  end.

(** Counting effects and events of a kind. *)
Definition count {A} (f : A -> bool) (l : list A) : nat := length (List.filter f l).

Definition isRefresh (e : ResizeEffect) : bool :=
  match e with Refresh => true | _ => false end.

Definition isRequest (e : ResizeEffect) : bool :=
  match e with RequestAnimationFrame _ => true | _ => false end.

Definition isFrameRun (ev : ResizeEvent) : bool :=
  match ev with FrameRuns _ => true | _ => false end.

(** What the callbacks keep: the debounce id is never set, and the frames
    awaited are distinct ids handed out already. *)
Definition resizeInv (s : Resizing) : Prop :=
  resizeDebounceId s = None /\ NoDup (frames s) /\
  forall f, f ∈ frames s -> f < nextFrame s.

(** ** Worked editor states *)

(** The user has typed ["@fo"]. *)
Definition typedDoc : Doc := authorDoc (units "@fo") [].

Definition typedRange : HintRange := {| from := Pos 0 11; to := Pos 0 14 |}.

Definition typed : AuthorInput :=
  {| doc := typedDoc;
     primary := {| anchor := Pos 0 14; head := Pos 0 14 |};
     secondary := [];
     hintActive := false;
     label := Some 0%nat;
     placeholder := Some 1%nat |}.

(** The user has typed ["@"]; the cursor stands right after it. *)
Definition typedAt : AuthorInput :=
  {| doc := authorDoc (units "@") [];
     primary := {| anchor := Pos 0 12; head := Pos 0 12 |};
     secondary := [];
     hintActive := false;
     label := Some 0%nat;
     placeholder := Some 1%nat |}.

(** The same text with the ["@"] selected, the head of the selection
    after it. *)
Definition selectedAt : AuthorInput :=
  {| doc := authorDoc (units "@") [];
     primary := {| anchor := Pos 0 11; head := Pos 0 12 |};
     secondary := [];
     hintActive := false;
     label := Some 0%nat;
     placeholder := Some 1%nat |}.

(** A provider that knows one user, whatever the needle. *)
Definition foxProvider : IAutocompletionProvider :=
  {| kind := "user";
     isUserAutocompletionProvider := true;
     getAutocompletionItems :=
       fun _ => Normal [{| username := units "fox"; name := units "Mr Fox" |}] |}.

(** The element is given, two notifications follow, then the two frames
    run. *)
Definition twoResizes : list ResizeEvent :=
  [ContainerRef true; Observed 1; Observed 2; FrameRuns 1; FrameRuns 2].

(** What the provider's user makes of ["@fo"]. *)
Definition foxHints : Hints :=
  {| hintList := [{| text := units "@fox"; hintUsername := units "fox";
                     hintName := units "Mr Fox" |}];
     hintRange := typedRange |}.

(** ["a b"] entered between the label and the placeholder. *)
Definition blankDoc : Doc := authorDoc (units "a b") [].

(** The label and ["@ab"] on the first line, ["@cd"] and the placeholder on
    the second: Enter was pressed between two entries. *)
Definition twoLineDoc : Doc :=
  {| firstLine := labelText ++ units "@ab";
     moreLines := [units "@cd" ++ placeholderText];
     markers :=
       [ {| className := "label"; find := Some (Pos 0 0, Pos 0 11); collapsed := None |};
         {| className := "placeholder"; find := Some (Pos 1 3, Pos 1 12);
            collapsed := None |} ] |}.

(** A document of one letter, without markers. *)
Definition plainDoc : Doc := {| firstLine := units "a"; moreLines := []; markers := [] |}.

End AuthorInput.

(* ===================================================================== *)
(** * Part III. The dialog: what the token guard ensures                  *)
(* ===================================================================== *)

Import AddExistingRepository.

Section DialogFacts.

Context `{env : Environment}.

Lemma resume_spec token l k rest :
  resume token l = Some (k, rest) ->
  pendingToken k = token /\
  (forall x, x ∈ l <-> x = k \/ x ∈ rest) /\
  (NoDup (pendingToken <$> l) ->
   NoDup (pendingToken <$> rest) /\ token ∉ (pendingToken <$> rest)).
Proof.
  revert k rest. induction l as [|x l IH]; intros k rest; cbn [resume]; [discriminate|].
  destruct (pendingToken x =? token) eqn:E.
  - intros [= <- <-]. apply Z.eqb_eq in E. split; [done|]. split.
    + intros y. rewrite elem_of_cons. tauto.
    + rewrite fmap_cons, NoDup_cons. intros [Hx Hl]. split; [done|]. by rewrite <- E.
  - destruct (resume token l) as [[k' r]|] eqn:R; [|discriminate].
    intros [= <- <-]. destruct (IH _ _ eq_refl) as (Hk & Hin & Hnd).
    apply Z.eqb_neq in E. split; [done|]. split.
    + intros y. rewrite !elem_of_cons, Hin. tauto.
    + rewrite !fmap_cons, !NoDup_cons. intros [Hx Hl].
      destruct (Hnd Hl) as [Hr Ht]. repeat split.
      * intros Hin'. apply Hx. apply list_elem_of_fmap in Hin' as (y & -> & Hy).
        apply list_elem_of_fmap. exists y. split; [done|]. apply Hin. by right.
      * done.
      * rewrite elem_of_cons. intros [?|?]; [congruence|done].
Qed.

Lemma latestPath_issued h : latestPath h = None <-> issued h = 0%nat.
Proof.
  induction h as [|ev h IH]; simpl; [done|].
  destruct (issuedPath ev); [split; discriminate|done].
Qed.

Lemma consistent_constructor : consistent [] constructor.
Proof.
  split; simpl; try done.
  - intros k Hk. by apply elem_of_nil in Hk.
  - constructor.
  - intros t b Hin. by apply elem_of_nil in Hin.
  - intros t b Hin. by apply elem_of_nil in Hin.
Qed.

Lemma consistent_check h c ev p :
  consistent h c -> issuedPath ev = Some p ->
  (forall t b, ev <> CheckResolved t b) ->
  consistent (ev :: h) (checkIfPathIsRepository p c).
Proof.
  intros [Htok Hrange Hnd Hres Hgone Hshown] Hev Hne.
  assert (Hold : forall t b, CheckResolved t b ∈ ev :: h -> CheckResolved t b ∈ h).
  { intros t b. rewrite elem_of_cons. intros [E|?]; [|done]. by destruct (Hne t b). }
  split; simpl; rewrite ?Hev.
  - lia.
  - intros k. rewrite elem_of_cons. intros [->|Hk]; simpl; [lia|].
    specialize (Hrange k Hk). lia.
  - apply NoDup_cons. split; [|done].
    intros Hin. apply list_elem_of_fmap in Hin as (k & Hk & Hin).
    specialize (Hrange k Hin). lia.
  - intros t b Hin. specialize (Hres t b (Hold _ _ Hin)). lia.
  - intros t b Hin. rewrite elem_of_cons. intros [->|Hin'].
    + specialize (Hres _ b (Hold _ _ Hin)). lia.
    + by apply (Hgone t b (Hold _ _ Hin)).
  - split; [done|]. intros b. split; [discriminate|].
    intros Hin. specialize (Hres _ b (Hold _ _ Hin)). lia.
Qed.

Lemma consistent_fire h c ev c' :
  consistent h c -> fire ev c = Some c' -> consistent (ev :: h) c'.
Proof.
  intros Hc Hf. destruct ev as [value|directory|token isRepo|token]; simpl in Hf.
  - injection Hf as <-. by apply consistent_check.
  - destruct directory as [dirs|]; simpl in Hf.
    + destruct (dirs !! 0%nat) as [p|] eqn:E; [|discriminate].
      injection Hf as <-. by apply consistent_check.
    + injection Hf as <-. destruct Hc as [Htok Hrange Hnd Hres Hgone Hshown].
      split; simpl; try done.
      * intros t b. rewrite elem_of_cons. intros [?|?]; [done|eauto].
      * intros t b. rewrite elem_of_cons. intros [?|?]; [done|eauto].
      * destruct (latestPath h); [|done]. destruct Hshown as [? Hb]. split; [done|].
        intros b. rewrite Hb, elem_of_cons. split; [tauto|]. by intros [?|?].
  - destruct (resume token (suspended c)) as [[k rest]|] eqn:R; [|discriminate].
    injection Hf as <-. destruct Hc as [Htok Hrange Hnd Hres Hgone Hshown].
    destruct (resume_spec _ _ _ _ R) as (Hk & Hin & Hdup).
    destruct (Hdup Hnd) as [Hnd' Hfresh].
    assert (Hkr : 1 <= token <= checkGitRepositoryToken c).
    { rewrite <- Hk. apply Hrange, Hin. by left. }
    assert (Hsome : latestPath h <> None).
    { rewrite latestPath_issued. lia. }
    split; simpl; try done.
    + intros x Hx. apply Hrange, Hin. by right.
    + intros t b. rewrite elem_of_cons. intros [E|?]; [|eauto]. injection E as -> ->. lia.
    + intros t b. rewrite elem_of_cons. intros [[= -> ->]|Ht]; [done|].
      intros Hin'. apply (Hgone t b Ht).
      apply list_elem_of_fmap in Hin' as (y & -> & Hy).
      apply list_elem_of_fmap. exists y. split; [done|]. apply Hin. by right.
    + destruct (latestPath h) as [p|]; [|done]. destruct Hshown as [Hp Hb].
      unfold checkResumed. destruct (token =? checkGitRepositoryToken c) eqn:E; simpl.
      * apply Z.eqb_eq in E. rewrite <- E. split; [done|]. intros b.
        rewrite elem_of_cons. split; [intros [= ->]; by left|].
        intros [[= ->]|Hold]; [done|]. exfalso. apply (Hgone _ _ Hold).
        apply list_elem_of_fmap. exists k. split; [done|]. apply Hin. by left.
      * apply Z.eqb_neq in E. split; [done|]. intros b. rewrite Hb, elem_of_cons.
        split; [tauto|]. intros [[= ? ?]|?]; [congruence|done].
  - destruct (resume token (suspended c)) as [[k rest]|] eqn:R; [|discriminate].
    injection Hf as <-. destruct Hc as [Htok Hrange Hnd Hres Hgone Hshown].
    destruct (resume_spec _ _ _ _ R) as (Hk & Hin & Hdup).
    destruct (Hdup Hnd) as [Hnd' Hfresh].
    split; simpl; try done.
    + intros x Hx. apply Hrange, Hin. by right.
    + intros t b. rewrite elem_of_cons. intros [?|?]; [done|eauto].
    + intros t b. rewrite elem_of_cons. intros [?|Ht]; [done|].
      intros Hin'. apply (Hgone t b Ht).
      apply list_elem_of_fmap in Hin' as (y & -> & Hy).
      apply list_elem_of_fmap. exists y. split; [done|]. apply Hin. by right.
    + destruct (latestPath h) as [p|]; [|done]. destruct Hshown as [Hp Hb].
      split; [done|]. intros b. rewrite Hb, elem_of_cons.
      split; [tauto|]. by intros [?|?].
Qed.

Lemma reachable_consistent h c : reachable h c -> consistent h c.
Proof.
  induction 1 as [|h c ev c' _ IH Hf]; [apply consistent_constructor|].
  by apply (consistent_fire h c).
Qed.

Lemma reachable_run h c : reachable h c <-> run h = Some c.
Proof.
  revert c. induction h as [|ev h IH]; intros c; simpl.
  - split; [by inversion 1|intros [= <-]; constructor].
  - split.
    + inversion 1 as [|h0 c0 ev0 c1 Hr Hf]; subst.
      apply IH in Hr. by rewrite Hr.
    + destruct (run h) as [c0|] eqn:R; [|discriminate].
      intros Hf. econstructor; [|done]. by apply IH.
Qed.


(** The submit button, for any state. *)
Lemma submitDisabled_spec (s : IAddExistingRepositoryState) :
  submitDisabled (render s) = true <-> path s = EmptyString \/ isGitRepository s = None.
Proof.
  unfold render. cbn [submitDisabled]. rewrite orb_true_iff, Nat.eqb_eq.
  assert (Hlen : String.length (path s) = 0%nat <-> path s = EmptyString).
  { destruct (path s); simpl; split; (done || discriminate). }
  rewrite Hlen. destruct (isGitRepository s); split; intros [?|?]; auto; discriminate.
Qed.

(** A suspended call [resume] finds is one of the suspended calls. *)
Lemma resume_suspended token l k rest :
  resume token l = Some (k, rest) -> k ∈ l /\ pendingToken k = token.
Proof.
  intros (Hk & Hin & _)%resume_spec. split; [|done]. apply Hin. by left.
Qed.

(** While the latest check is suspended the flag is pending. *)
Lemma latest_suspended_pending h c k :
  reachable h c -> k ∈ suspended c -> pendingToken k = checkGitRepositoryToken c ->
  isGitRepository (state c) = None.
Proof.
  intros [Htok Hrange Hnd Hres Hgone Hshown]%reachable_consistent Hk Hlatest.
  pose proof (Hrange k Hk) as Hr.
  destruct (latestPath h) as [p|] eqn:Hp.
  - destruct Hshown as [_ Hb].
    destruct (isGitRepository (state c)) as [b|] eqn:Hflag; [exfalso|done].
    apply (Hgone (checkGitRepositoryToken c) b); [by apply Hb|].
    apply list_elem_of_fmap. by exists k.
  - apply latestPath_issued in Hp. lia.
Qed.

(** C1. Every invocation of [checkIfPathIsRepository] (from the text box or
    the file picker) strictly increases the token, which counts the checks
    issued so far; a check that completes while its token is not the current
    one, by resolving or by rejecting, leaves the component state unchanged;
    hence, as soon as a check was issued, the state shows the path of the
    most recently issued check and the flag is exactly the verdict that this
    check delivered: [Some b] when it resolved with [b], pending otherwise. *)
Theorem token_guard_shows_latest_check (h : list Event) (c : Component) :
  reachable h c ->
  (forall ev p c', issuedPath ev = Some p -> fire ev c = Some c' ->
     checkGitRepositoryToken c < checkGitRepositoryToken c' /\
     checkGitRepositoryToken c' = Z.of_nat (issued (ev :: h))) /\
  (forall token isRepo c',
     fire (CheckResolved token isRepo) c = Some c' ->
     token <> checkGitRepositoryToken c ->
     state c' = state c /\ checkGitRepositoryToken c' = checkGitRepositoryToken c) /\
  (forall token c',
     fire (CheckRejected token) c = Some c' ->
     state c' = state c /\ checkGitRepositoryToken c' = checkGitRepositoryToken c) /\
  (forall p, latestPath h = Some p ->
     path (state c) = p /\
     forall b, isGitRepository (state c) = Some b
               <-> CheckResolved (Z.of_nat (issued h)) b ∈ h).
Proof.
  intros Hreach. pose proof (reachable_consistent h c Hreach) as Hc.
  split; [|split; [|split]].
  - intros ev p c' Hev Hf.
    pose proof (consistent_fire h c ev c' Hc Hf) as Hc'.
    rewrite (token_counts _ _ Hc), (token_counts _ _ Hc').
    cbn [issued]. rewrite Hev. lia.
  - intros token isRepo c' Hf Hne. cbn [fire] in Hf.
    destruct (resume token (suspended c)) as [[k rest]|]; [|discriminate].
    injection Hf as <-. cbn [state checkGitRepositoryToken]. split; [|done].
    unfold checkResumed. by destruct (Z.eqb_spec token (checkGitRepositoryToken c)).
  - intros token c' Hf. cbn [fire] in Hf.
    destruct (resume token (suspended c)) as [[k rest]|]; [|discriminate].
    by injection Hf as <-.
  - intros p Hp. pose proof (shown_latest _ _ Hc) as Hs. rewrite Hp in Hs.
    by rewrite <- (token_counts _ _ Hc).
Qed.

(** C4. A path change, typed in the text box or chosen in the file picker,
    stores the new path and sets the flag to pending ([null]) at once, while
    the check it started is still suspended on the repository predicate. *)
Theorem path_change_stores_path_and_pends (c : Component) (p : string) (more : list string) :
  let c' := onPathChanged p c in
  fire (PathChanged p) c = Some c' /\
  fire (FilePicker (Some (p :: more))) c = Some c' /\
  state c' = {| path := p; isGitRepository := None |} /\
  suspended c' = {| pendingToken := checkGitRepositoryToken c';
                    pendingPath := resolvedPath p |} :: suspended c.
Proof. by repeat split. Qed.

(** C5, as the code has it. A rejected check changes nothing in the
    component: the state, and with it everything [render] shows, stays as it
    was, so the rejection never sets the flag to [true] and raises nothing
    the user could see; and when the rejected check is the most recently
    issued one the flag is left pending. *)
Theorem rejected_check_changes_nothing (h : list Event) (c : Component) (token : Z) (c' : Component) :
  reachable h c -> fire (CheckRejected token) c = Some c' ->
  state c' = state c /\
  render (state c') = render (state c) /\
  checkGitRepositoryToken c' = checkGitRepositoryToken c /\
  (isGitRepository (state c) <> Some true -> isGitRepository (state c') <> Some true) /\
  (token = checkGitRepositoryToken c -> isGitRepository (state c') = None).
Proof.
  intros Hreach Hf. cbn [fire] in Hf.
  destruct (resume token (suspended c)) as [[k rest]|] eqn:R; [|discriminate].
  injection Hf as <-. cbn [state checkGitRepositoryToken].
  repeat split; [done|]. intros ->.
  apply resume_suspended in R as [Hk Hlatest].
  by apply (latest_suspended_pending h c k).
Qed.

(** C7. When the native picker returns nothing, [showFilePicker] leaves the
    component as it is: same state, same token, no new check. Otherwise the
    first chosen directory becomes the path, the flag is pending, and a check
    of that directory, resolved, is started under a fresh token. *)
Theorem file_picker_cancel_or_check (c : Component) (first : string) (more : list string) :
  showFilePicker None c = Some c /\
  fire (FilePicker None) c = Some c /\
  exists c', showFilePicker (Some (first :: more)) c = Some c' /\
    state c' = {| path := first; isGitRepository := None |} /\
    checkGitRepositoryToken c' = checkGitRepositoryToken c + 1 /\
    suspended c' = {| pendingToken := checkGitRepositoryToken c + 1;
                      pendingPath := untildify first |} :: suspended c.
Proof. repeat split. by eexists. Qed.

(** C10, as the code has it. In every state the dialog reaches, [render]
    disables the submit button exactly when the stored path is empty or the
    flag is pending; so the button is disabled before any path was entered
    and for as long as the most recently issued check is still in flight. *)
Theorem submit_disabled_iff (h : list Event) (c : Component) :
  reachable h c ->
  (submitDisabled (render (state c)) = true
   <-> path (state c) = EmptyString \/ isGitRepository (state c) = None) /\
  (h = [] -> submitDisabled (render (state c)) = true) /\
  (forall k, k ∈ suspended c -> pendingToken k = checkGitRepositoryToken c ->
             submitDisabled (render (state c)) = true).
Proof.
  intros Hreach. split; [apply submitDisabled_spec|]. split.
  - intros ->. by inversion Hreach.
  - intros k Hk Hlatest. apply submitDisabled_spec. right.
    by apply (latest_suspended_pending h c k).
Qed.

End DialogFacts.

Section SubmitFacts.

Context `{env : Environment}.

Variable Repository : Type.

(** C8. Submitting hands the dispatcher exactly the one-element list holding
    the untildified current path, first and once; the first element of a
    non-empty returned list is selected, and nothing is selected otherwise;
    and whatever was returned, the dialog is dismissed, last and once. *)
Theorem addRepository_effects (s : IAddExistingRepositoryState)
    (repositories : option (list Repository)) :
  let effects := addRepository Repository s (Returned repositories) in
  (exists rest, effects = AddRepositories [untildify (path s)] :: rest /\
                forall paths, AddRepositories paths ∉ rest) /\
  (forall r, SelectRepository r ∈ effects
             <-> exists more, repositories = Some (r :: more)) /\
  (exists before, effects = before ++ [Dismissed] /\ Dismissed ∉ before).
Proof.
  cbn zeta. unfold addRepository, resolvedPath.
  destruct repositories as [[|r0 more0]|]; cbn [app].
  all: split;
    [eexists; split; [reflexivity|]; intros paths;
     rewrite !elem_of_cons, elem_of_nil; intuition discriminate|].
  all: split; [intros r; rewrite !elem_of_cons, elem_of_nil|].
  - split; [intuition discriminate|intros [more [=]]].
  - exists [AddRepositories [untildify (path s)]]. split; [done|].
    rewrite !elem_of_cons, elem_of_nil. intuition discriminate.
  - split.
    + intros [?|[[= ->]|[?|[]]]]; try discriminate. by eexists.
    + intros [more [= -> ->]]. auto.
  - exists [AddRepositories [untildify (path s)]; SelectRepository r0]. split; [done|].
    rewrite !elem_of_cons, elem_of_nil. intuition discriminate.
  - split; [intuition discriminate|intros [more [=]]].
  - exists [AddRepositories [untildify (path s)]]. split; [done|].
    rewrite !elem_of_cons, elem_of_nil. intuition discriminate.
Qed.

(** When the dispatcher's promise is rejected instead, [addRepository] throws
    at its [await]: the request was made, and the dialog stays. *)
Lemma addRepository_failed (s : IAddExistingRepositoryState) :
  addRepository Repository s Failed = [AddRepositories [untildify (path s)]].
Proof. reflexivity. Qed.

End SubmitFacts.

(* ===================================================================== *)
(** * Part IV. The author input: indices, the scan and the handlers       *)
(* ===================================================================== *)

Import AuthorInput.

Section DocFacts.

Implicit Types (d : Doc) (p : Position) (ls : list jsstring).

Lemma strlen_nonneg (s : jsstring) : 0 <= strlen s.
Proof. unfold strlen. lia. Qed.

Lemma offsetOfLine_step ls (k : nat) l :
  ls !! k = Some l -> offsetOfLine ls (S k) = offsetOfLine ls k + strlen l + 1.
Proof.
  revert k. induction ls as [|x ls IH]; intros [|k] Hl; try discriminate.
  - injection Hl as ->. destruct ls; simpl; lia.
  - simpl in Hl. specialize (IH k Hl). cbn [offsetOfLine] in *. lia.
Qed.

Lemma offsetOfLine_mono ls (j k : nat) :
  (j <= k)%nat -> offsetOfLine ls j <= offsetOfLine ls k.
Proof.
  revert j k. induction ls as [|x ls IH]; intros [|j] [|k] Hjk; simpl; try lia.
  - pose proof (strlen_nonneg x). specialize (IH 0%nat k ltac:(lia)).
    destruct ls; simpl in *; lia.
  - specialize (IH j k ltac:(lia)). lia.
Qed.

Lemma offsetOfLine_nonneg ls (k : nat) : 0 <= offsetOfLine ls k.
Proof.
  pose proof (offsetOfLine_mono ls 0 k ltac:(lia)) as Hm.
  destruct ls; simpl in *; lia.
Qed.

Lemma offsetOfLine_last ls (k : nat) l :
  ls !! k = Some l -> offsetOfLine ls k + strlen l + 1 <= offsetOfLine ls (length ls).
Proof.
  intros Hl. rewrite <- (offsetOfLine_step _ _ _ Hl).
  apply offsetOfLine_mono. apply lookup_lt_Some in Hl. lia.
Qed.

Lemma size_pos d : 1 <= size d.
Proof. unfold size, lines. simpl. lia. Qed.

Lemma getLine_Some d (n : Z) l :
  getLine d n = Some l <-> 0 <= n /\ lines d !! Z.to_nat n = Some l.
Proof.
  unfold getLine. destruct (n <? 0) eqn:E.
  - apply Z.ltb_lt in E. split; [discriminate|lia].
  - apply Z.ltb_ge in E. tauto.
Qed.

Lemma lineLength_lookup d (n : Z) l :
  0 <= n -> lines d !! Z.to_nat n = Some l -> lineLength d n = strlen l.
Proof.
  intros Hn Hl. unfold lineLength.
  destruct (getLine d n) as [l'|] eqn:G.
  - apply getLine_Some in G as [_ G]. congruence.
  - unfold getLine in G. destruct (n <? 0) eqn:E; [apply Z.ltb_lt in E; lia|congruence].
Qed.

Lemma lookup_line d (n : Z) :
  0 <= n < size d -> exists l, lines d !! Z.to_nat n = Some l.
Proof.
  intros Hn. apply lookup_lt_is_Some_2. unfold size in Hn. lia.
Qed.

Lemma clipPos_valid d p : validPos d (clipPos d p).
Proof.
  unfold clipPos. pose proof (size_pos d) as Hs.
  destruct (line p <? 0) eqn:E1.
  - destruct (lookup_line d 0 ltac:(lia)) as [l Hl].
    exists l. simpl. pose proof (strlen_nonneg l). auto with lia.
  - apply Z.ltb_ge in E1. destruct (line p >? size d - 1) eqn:E2.
    + destruct (lookup_line d (size d - 1) ltac:(lia)) as [l Hl].
      exists l. simpl. rewrite (lineLength_lookup d _ l) by (done || lia).
      pose proof (strlen_nonneg l). auto with lia.
    + assert (line p <= size d - 1) by (destruct (Z.gtb_spec (line p) (size d - 1)); [discriminate|lia]).
      destruct (lookup_line d (line p) ltac:(lia)) as [l Hl].
      rewrite (lineLength_lookup d _ l) by (done || lia).
      pose proof (strlen_nonneg l). exists l. unfold clipToLen.
      destruct (ch p >? strlen l) eqn:E3; simpl; [auto with lia|].
      assert (ch p <= strlen l) by (destruct (Z.gtb_spec (ch p) (strlen l)); [discriminate|lia]).
      destruct (ch p <? 0) eqn:E4; simpl; [auto with lia|].
      apply Z.ltb_ge in E4. auto with lia.
Qed.

Lemma clipPos_id d p : validPos d p -> clipPos d p = p.
Proof.
  intros (l & Hl & Hn & Hc). unfold clipPos.
  assert (line p < size d).
  { apply lookup_lt_Some in Hl. unfold size. lia. }
  destruct (Z.ltb_spec (line p) 0); [lia|].
  destruct (Z.gtb_spec (line p) (size d - 1)); [lia|].
  rewrite (lineLength_lookup d _ l) by done. unfold clipToLen.
  destruct (Z.gtb_spec (ch p) (strlen l)); [lia|].
  destruct (Z.ltb_spec (ch p) 0); [lia|done].
Qed.

Lemma clipPos_idemp d p : clipPos d (clipPos d p) = clipPos d p.
Proof. apply clipPos_id, clipPos_valid. Qed.

Lemma indexFromPos_valid d p :
  validPos d p -> indexFromPos d p = ch p + offsetOfLine (lines d) (Z.to_nat (line p)).
Proof.
  intros Hv. unfold indexFromPos. rewrite (clipPos_id d p Hv).
  destruct Hv as (l & Hl & Hn & Hc).
  destruct (Z.ltb_spec (line p) 0); [lia|].
  destruct (Z.ltb_spec (ch p) 0); [lia|done].
Qed.

Lemma indexFromPos_clip d p : indexFromPos d (clipPos d p) = indexFromPos d p.
Proof. unfold indexFromPos. by rewrite clipPos_idemp. Qed.

Lemma indexFromPos_range d p : 0 <= indexFromPos d p <= docEnd d.
Proof.
  rewrite <- indexFromPos_clip. pose proof (clipPos_valid d p) as Hv.
  rewrite (indexFromPos_valid _ _ Hv). destruct Hv as (l & Hl & Hn & Hc).
  pose proof (offsetOfLine_nonneg (lines d) (Z.to_nat (line (clipPos d p)))).
  pose proof (offsetOfLine_last _ _ _ Hl). unfold docEnd. lia.
Qed.

Lemma posFromIndexIter_spec ls : forall (n off : Z), 0 <= off ->
  match posFromIndexIter ls n off with
  | (ln, Some c) =>
      exists (k : nat) l, ln = n + Z.of_nat k /\ ls !! k = Some l /\
                          0 <= c <= strlen l /\ off = c + offsetOfLine ls k
  | (ln, None) =>
      ln = n + Z.of_nat (length ls) /\ offsetOfLine ls (length ls) <= off
  end.
Proof.
  induction ls as [|x ls IH]; intros n off Hoff; cbn [posFromIndexIter].
  - simpl. lia.
  - destruct (Z.gtb_spec (strlen x + 1) off) as [Hlt|Hge].
    + exists 0%nat, x. simpl. repeat split; lia.
    + specialize (IH (n + 1) (off - (strlen x + 1)) ltac:(lia)).
      destruct (posFromIndexIter ls (n + 1) (off - (strlen x + 1))) as [ln [c|]].
      * destruct IH as (k & l & -> & Hl & Hc & Ho).
        exists (S k), l. cbn [offsetOfLine]. simpl lookup. repeat split; try done; lia.
      * destruct IH as [-> Ho]. cbn [length offsetOfLine]. lia.
Qed.

Lemma posFromIndex_valid d (i : Z) : validPos d (posFromIndex d i).
Proof.
  unfold posFromIndex. destruct (posFromIndexIter (lines d) 0 i) as [ln [c|]];
    apply clipPos_valid.
Qed.

Lemma validPos_at d (k : nat) l (c : Z) :
  lines d !! k = Some l -> 0 <= c <= strlen l -> validPos d (Pos (Z.of_nat k) c).
Proof.
  intros Hl Hc. exists l. cbn [line ch]. rewrite Nat2Z.id. auto with lia.
Qed.

Lemma indexFromPos_at d (k : nat) l (c : Z) :
  lines d !! k = Some l -> 0 <= c <= strlen l ->
  indexFromPos d (Pos (Z.of_nat k) c) = c + offsetOfLine (lines d) k.
Proof.
  intros Hl Hc. rewrite indexFromPos_valid by by eapply validPos_at.
  cbn [line ch]. by rewrite Nat2Z.id.
Qed.

Lemma last_line d :
  exists l, lines d !! Z.to_nat (size d - 1) = Some l /\
            docEnd d = strlen l + offsetOfLine (lines d) (Z.to_nat (size d - 1)).
Proof.
  pose proof (size_pos d).
  destruct (lookup_line d (size d - 1) ltac:(lia)) as [l Hl].
  exists l. split; [done|]. pose proof (offsetOfLine_step _ _ _ Hl) as Hst.
  unfold docEnd, size in *.
  replace (S (Z.to_nat (Z.of_nat (length (lines d)) - 1)))
    with (length (lines d)) in Hst by lia.
  lia.
Qed.

(** An index inside the document is the index of a position of the
    document. *)
Lemma posFromIndex_inside d (i : Z) :
  0 <= i <= docEnd d ->
  exists (k : nat) l c, posFromIndex d i = Pos (Z.of_nat k) c /\
    lines d !! k = Some l /\ 0 <= c <= strlen l /\ i = c + offsetOfLine (lines d) k.
Proof.
  intros Hi. unfold posFromIndex.
  pose proof (posFromIndexIter_spec (lines d) 0 i ltac:(lia)) as Hs.
  destruct (posFromIndexIter (lines d) 0 i) as [ln [c|]].
  - destruct Hs as (k & l & -> & Hl & Hc & Ho). exists k, l, c.
    rewrite Z.add_0_l. split; [|done]. apply clipPos_id. by eapply validPos_at.
  - destruct Hs as [_ Ho]. unfold docEnd in Hi. lia.
Qed.

(** Past the end, [posFromIndex] answers the end of the last line. *)
Lemma posFromIndex_past d (i : Z) :
  docEnd d < i -> posFromIndex d i = Pos (size d - 1) (lineLength d (size d - 1)).
Proof.
  intros Hi. pose proof (indexFromPos_range d (Pos 0 0)) as Hr.
  unfold posFromIndex.
  pose proof (posFromIndexIter_spec (lines d) 0 i ltac:(lia)) as Hs.
  destruct (posFromIndexIter (lines d) 0 i) as [ln [c|]].
  - destruct Hs as (k & l & -> & Hl & Hc & Ho).
    pose proof (offsetOfLine_last _ _ _ Hl). unfold docEnd in *. lia.
  - destruct Hs as [-> _]. unfold clipPos. cbn [line]. unfold size.
    destruct (Z.ltb_spec (0 + Z.of_nat (length (lines d))) 0); [lia|].
    destruct (Z.gtb_spec (0 + Z.of_nat (length (lines d)))
                         (Z.of_nat (length (lines d)) - 1)); [done|lia].
Qed.

Lemma posFromIndex_end d :
  posFromIndex d (docEnd d) = Pos (size d - 1) (lineLength d (size d - 1)).
Proof.
  pose proof (indexFromPos_range d (Pos 0 0)) as Hr.
  destruct (posFromIndex_inside d (docEnd d) ltac:(lia)) as (k & l & c & -> & Hl & Hc & Ho).
  destruct (last_line d) as (l' & Hl' & He). pose proof (size_pos d).
  rewrite (lineLength_lookup d _ l') by (done || lia).
  assert (Hk : (k < length (lines d))%nat) by by eapply lookup_lt_Some.
  destruct (decide (Z.of_nat k = size d - 1)) as [Heq|Hne].
  - rewrite <- Heq in *. rewrite Nat2Z.id in *. f_equal.
    assert (l = l') by congruence. subst l'. lia.
  - exfalso. unfold size in *.
    pose proof (offsetOfLine_step _ _ _ Hl) as Hst.
    pose proof (offsetOfLine_mono (lines d) (S k) (Z.to_nat (Z.of_nat (length (lines d)) - 1))
                  ltac:(lia)).
    pose proof (strlen_nonneg l'). lia.
Qed.

Lemma posFromIndex_beyond d (i : Z) :
  docEnd d <= i -> posFromIndex d i = posFromIndex d (docEnd d).
Proof.
  intros Hi. destruct (decide (i = docEnd d)) as [->|Hne]; [done|].
  rewrite posFromIndex_end. apply posFromIndex_past. lia.
Qed.

Lemma posFromIndex_negative d (i : Z) : i <= 0 -> posFromIndex d i = Pos 0 0.
Proof.
  intros Hi. unfold posFromIndex, lines. cbn [posFromIndexIter].
  pose proof (strlen_nonneg (firstLine d)).
  destruct (Z.gtb_spec (strlen (firstLine d) + 1) i); [|lia].
  unfold clipPos. cbn [line ch]. pose proof (size_pos d).
  destruct (Z.ltb_spec 0 0); [lia|].
  destruct (Z.gtb_spec 0 (size d - 1)); [lia|].
  unfold clipToLen. cbn [line ch].
  rewrite (lineLength_lookup d 0 (firstLine d)) by (done || lia).
  destruct (Z.gtb_spec i (strlen (firstLine d))); [lia|].
  destruct (Z.ltb_spec i 0); [done|].
  by replace i with 0 by lia.
Qed.

(** [posFromIndex] followed by [indexFromPos] clamps the index to the
    document. *)
Lemma index_of_posFromIndex d (i : Z) :
  indexFromPos d (posFromIndex d i) = Z.max 0 (Z.min i (docEnd d)).
Proof.
  pose proof (indexFromPos_range d (Pos 0 0)) as Hr.
  destruct (Z.le_gt_cases i 0) as [Hneg|Hpos].
  - rewrite posFromIndex_negative by done.
    rewrite (indexFromPos_at d 0 (firstLine d)); [simpl; lia|done|].
    pose proof (strlen_nonneg (firstLine d)). lia.
  - assert (Hin : forall j, 0 <= j <= docEnd d -> indexFromPos d (posFromIndex d j) = j).
    { intros j Hj. destruct (posFromIndex_inside d j Hj) as (k & l & c & -> & Hl & Hc & ->).
      by apply indexFromPos_at with l. }
    destruct (Z.le_gt_cases (docEnd d) i) as [Hbig|Hsmall].
    + rewrite posFromIndex_beyond, Hin by lia. lia.
    + rewrite Hin by lia. lia.
Qed.


(** ** The stop test never throws on the positions the scan visits *)

Lemma findMarksAt_found d p :
  Forall (fun m => is_Some (find m)) (findMarksAt d p).
Proof.
  unfold findMarksAt. apply List.Forall_forall. intros m Hm.
  apply List.filter_In in Hm as [_ Hm]. destruct (find m); [by eexists|discriminate].
Qed.

Lemma insideSomeMark_total d (ix : Z) marks :
  Forall (fun m => is_Some (find m)) marks ->
  exists b, insideSomeMark d ix marks = Normal b.
Proof.
  induction 1 as [|m marks [[markFrom markTo] Hm] _ IH]; cbn [insideSomeMark].
  - by exists false.
  - rewrite Hm.
    destruct ((ix >? indexFromPos d markFrom) && (ix <? indexFromPos d markTo));
      [by exists true|done].
Qed.

Lemma insideSomeMark_true d (ix : Z) marks :
  insideSomeMark d ix marks = Normal true ->
  exists m markFrom markTo, In m marks /\ find m = Some (markFrom, markTo) /\
    indexFromPos d markFrom < ix < indexFromPos d markTo.
Proof.
  induction marks as [|m marks IH]; cbn [insideSomeMark]; [discriminate|].
  destruct (find m) as [[markFrom markTo]|] eqn:Hm; [|discriminate].
  destruct (Z.gtb_spec ix (indexFromPos d markFrom)) as [Hf|Hf]; cbn [andb].
  - destruct (Z.ltb_spec ix (indexFromPos d markTo)) as [Ht|Ht].
    + intros _. exists m, markFrom, markTo. simpl. auto with lia.
    + intros (m' & f & t & Hin & Hfind & Hr)%IH. exists m', f, t. simpl. auto.
  - intros (m' & f & t & Hin & Hfind & Hr)%IH. exists m', f, t. simpl. auto.
Qed.

Lemma posIsInsideMarkedText_total d p :
  exists b, posIsInsideMarkedText d p = Normal b.
Proof. apply insideSomeMark_total, findMarksAt_found. Qed.

Lemma isMarkOrWhitespace_total d (i : Z) :
  exists b, isMarkOrWhitespace d (posFromIndex d i) = Normal b.
Proof.
  unfold isMarkOrWhitespace.
  destruct (posFromIndex_valid d i) as (l & Hl & Hn & Hc).
  assert (getLine d (line (posFromIndex d i)) = Some l) as -> by by apply getLine_Some.
  destruct (isWhitespace _); [by exists true|apply posIsInsideMarkedText_total].
Qed.

(** The end of the document never stops the scan: no character sits there,
    and no marked range extends beyond it. *)
Lemma isMarkOrWhitespace_end d :
  isMarkOrWhitespace d (posFromIndex d (docEnd d)) = Normal false.
Proof.
  destruct (isMarkOrWhitespace_total d (docEnd d)) as [[|] Hb]; [exfalso|done].
  revert Hb. unfold isMarkOrWhitespace.
  destruct (last_line d) as (l & Hl & He). pose proof (size_pos d).
  pose proof (index_of_posFromIndex d (docEnd d)) as Hix.
  pose proof (posFromIndex_end d) as Hq.
  set (q := posFromIndex d (docEnd d)) in *.
  assert (line q = size d - 1) as -> by by rewrite Hq.
  assert (ch q = strlen l) as ->.
  { rewrite Hq. cbn [ch]. apply lineLength_lookup; [lia|done]. }
  assert (getLine d (size d - 1) = Some l) as -> by (apply getLine_Some; auto with lia).
  assert (charAt l (strlen l) = None) as ->.
  { unfold charAt. pose proof (strlen_nonneg l).
    destruct (Z.ltb_spec (strlen l) 0); [done|].
    apply lookup_ge_None. unfold strlen. lia. }
  cbn [isWhitespace]. unfold posIsInsideMarkedText.
  intros (m & f & t & _ & _ & Hr)%insideSomeMark_true.
  pose proof (indexFromPos_range d t). pose proof (indexFromPos_range d q). lia.
Qed.

Lemma index_previousPosition d p :
  indexFromPos d (previousPosition d p) = Z.max 0 (indexFromPos d p - 1).
Proof.
  unfold previousPosition. rewrite index_of_posFromIndex.
  pose proof (indexFromPos_range d p). lia.
Qed.

Lemma index_nextPosition d p :
  indexFromPos d (nextPosition d p) = Z.min (docEnd d) (indexFromPos d p + 1).
Proof.
  unfold nextPosition. rewrite index_of_posFromIndex.
  pose proof (indexFromPos_range d p). lia.
Qed.

Lemma posFromIndex_index d (i : Z) :
  posFromIndex d (indexFromPos d (posFromIndex d i)) = posFromIndex d i.
Proof.
  rewrite index_of_posFromIndex. pose proof (indexFromPos_range d (Pos 0 0)).
  destruct (Z.le_gt_cases i 0).
  - rewrite !(posFromIndex_negative d) by lia. done.
  - destruct (Z.le_gt_cases (docEnd d) i).
    + rewrite (posFromIndex_beyond d i) by done. f_equal. lia.
    + f_equal. lia.
Qed.

(** ** Document order

    On the positions of the document, the order of indices is the order of
    positions; clipping moves a position to the nearest one of the
    document. *)

Lemma validPos_bounds d p :
  validPos d p ->
  0 <= line p <= size d - 1 /\ 0 <= ch p <= lineLength d (line p).
Proof.
  intros (l & Hl & Hn & Hc). rewrite (lineLength_lookup d _ l) by done.
  apply lookup_lt_Some in Hl. unfold size. lia.
Qed.

Lemma index_lt_order d p q :
  validPos d p -> validPos d q -> indexFromPos d p < indexFromPos d q ->
  line p < line q \/ (line p = line q /\ ch p < ch q).
Proof.
  intros Hp Hq. rewrite !indexFromPos_valid by done.
  destruct Hp as (lp & Hlp & Hnp & Hcp), Hq as (lq & Hlq & Hnq & Hcq).
  intros Hlt. destruct (Z.lt_trichotomy (line p) (line q)) as [?|[Heq|Hgt]]; [by left| |].
  - right. split; [done|]. rewrite Heq in Hlt. lia.
  - exfalso. pose proof (offsetOfLine_step _ _ _ Hlq) as Hst.
    pose proof (offsetOfLine_mono (lines d) (S (Z.to_nat (line q))) (Z.to_nat (line p))
                  ltac:(lia)). lia.
Qed.

Lemma clipPos_cases d p :
  let p' := clipPos d p in
  (line p < 0 /\ p' = Pos 0 0) \/
  (size d - 1 < line p /\ line p' = size d - 1 /\ ch p' = lineLength d (size d - 1)) \/
  (0 <= line p <= size d - 1 /\ line p' = line p /\
   ((lineLength d (line p) < ch p /\ ch p' = lineLength d (line p)) \/
    (ch p < 0 /\ ch p' = 0) \/ ch p' = ch p)).
Proof.
  cbn zeta. unfold clipPos.
  destruct (Z.ltb_spec (line p) 0); [by left|]. right.
  destruct (Z.gtb_spec (line p) (size d - 1)); [left; cbn [line ch]; lia|]. right.
  unfold clipToLen. split; [lia|].
  destruct (Z.gtb_spec (ch p) (lineLength d (line p))); cbn [line ch]; [auto with lia|].
  destruct (Z.ltb_spec (ch p) 0); cbn [line ch]; auto with lia.
Qed.

Lemma posLe_spec (a b : Position) :
  posLe a b = true <-> line a < line b \/ (line a = line b /\ ch a <= ch b).
Proof.
  unfold posLe. rewrite orb_true_iff, andb_true_iff, Z.ltb_lt, Z.eqb_eq, Z.leb_le. done.
Qed.

Lemma posLe_refl (a : Position) : posLe a a = true.
Proof. apply posLe_spec. lia. Qed.

(** A position of the document with a smaller index stands before, also
    before a position that is not clipped yet. *)
Lemma posLe_before d q p :
  validPos d q -> indexFromPos d q < indexFromPos d p -> posLe q p = true.
Proof.
  intros Hq Hlt. rewrite <- (indexFromPos_clip d p) in Hlt.
  apply index_lt_order in Hlt; [|done|apply clipPos_valid].
  apply validPos_bounds in Hq. apply posLe_spec.
  destruct (clipPos_cases d p) as [[? Hc]|[(? & ? & ?)|(? & ? & ?)]];
    [rewrite Hc in Hlt; cbn [line ch] in Hlt|..]; lia.
Qed.

Lemma posLe_after d q p :
  validPos d q -> indexFromPos d p < indexFromPos d q -> posLe p q = true.
Proof.
  intros Hq Hlt. rewrite <- (indexFromPos_clip d p) in Hlt.
  apply index_lt_order in Hlt; [|apply clipPos_valid|done].
  apply validPos_bounds in Hq. apply posLe_spec.
  destruct (clipPos_cases d p) as [[? Hc]|[(? & Hl & ?)|(? & Hl & ?)]];
    [rewrite Hc in Hlt; cbn [line ch] in Hlt; lia|..].
  - destruct Hlt as [?|[Heq ?]]; [lia|]. rewrite <- Heq, Hl in Hq. lia.
  - destruct Hlt as [?|[Heq ?]]; [lia|]. rewrite <- Heq, Hl in Hq. lia.
Qed.

(** ** The two loops *)

Lemma previousPosition_clamped d p :
  previousPosition d p = posFromIndex d (Z.max 0 (indexFromPos d p - 1)).
Proof.
  unfold previousPosition. pose proof (indexFromPos_range d p).
  destruct (decide (indexFromPos d p = 0)) as [->|].
  - by rewrite !(posFromIndex_negative d) by lia.
  - f_equal. lia.
Qed.

Lemma nextPosition_clamped d p :
  nextPosition d p = posFromIndex d (Z.min (docEnd d) (indexFromPos d p + 1)).
Proof.
  unfold nextPosition. pose proof (indexFromPos_range d p).
  destruct (decide (indexFromPos d p = docEnd d)) as [->|].
  - rewrite posFromIndex_beyond by lia. f_equal. lia.
  - f_equal. lia.
Qed.

Lemma extendFrom_sound (fuel : nat) d p r :
  extendFrom fuel d p = Some (Normal r) ->
  indexFromPos d r <= indexFromPos d p /\
  (r = p \/ (r = posFromIndex d (indexFromPos d r) /\ indexFromPos d r < indexFromPos d p)) /\
  (forall j, indexFromPos d r <= j < indexFromPos d p ->
             isMarkOrWhitespace d (posFromIndex d j) = Normal false) /\
  isMarkOrWhitespace d (previousPosition d r) = Normal true.
Proof.
  revert p. induction fuel as [|fuel IH]; intros p; cbn [extendFrom]; [discriminate|].
  destruct (isMarkOrWhitespace d (previousPosition d p)) as [[|]|] eqn:Hs;
    [| |discriminate].
  - intros [= <-]. split; [lia|]. split; [by left|]. split; [intros; lia|done].
  - intros (Hle & Hr & Hrun & Hstop)%IH.
    rewrite index_previousPosition in Hle, Hrun, Hr.
    pose proof (indexFromPos_range d r). pose proof (indexFromPos_range d p).
    assert (Hlt : indexFromPos d r < indexFromPos d p).
    { destruct (decide (indexFromPos d p = 0)) as [Hz|]; [exfalso|lia].
      rewrite previousPosition_clamped in Hs, Hstop.
      replace (indexFromPos d r) with 0 in Hstop by lia.
      rewrite Hz in Hs. simpl in Hs, Hstop. congruence. }
    split; [lia|]. split; [|split; [|done]].
    + right. split; [|done]. destruct Hr as [->|[Hr _]]; [|done].
      unfold previousPosition. by rewrite posFromIndex_index.
    + intros j Hj. destruct (decide (j < Z.max 0 (indexFromPos d p - 1))) as [Hj'|Hj'].
      * apply Hrun. lia.
      * replace j with (indexFromPos d p - 1) by lia. exact Hs.
Qed.

Lemma extendTo_sound (fuel : nat) d p r :
  extendTo fuel d p = Some (Normal r) ->
  indexFromPos d p <= indexFromPos d r /\
  (r = p \/ (r = posFromIndex d (indexFromPos d r) /\ indexFromPos d p < indexFromPos d r)) /\
  (forall j, indexFromPos d p < j <= indexFromPos d r ->
             isMarkOrWhitespace d (posFromIndex d j) = Normal false) /\
  isMarkOrWhitespace d (nextPosition d r) = Normal true.
Proof.
  revert p. induction fuel as [|fuel IH]; intros p; cbn [extendTo]; [discriminate|].
  destruct (isMarkOrWhitespace d (nextPosition d p)) as [[|]|] eqn:Hs;
    [| |discriminate].
  - intros [= <-]. split; [lia|]. split; [by left|]. split; [intros; lia|done].
  - intros (Hle & Hr & Hrun & Hstop)%IH.
    rewrite index_nextPosition in Hle, Hrun, Hr.
    pose proof (indexFromPos_range d r). pose proof (indexFromPos_range d p).
    assert (Hlt : indexFromPos d p < indexFromPos d r).
    { destruct (decide (indexFromPos d p = docEnd d)) as [Hz|]; [exfalso|lia].
      rewrite nextPosition_clamped in Hstop.
      replace (Z.min (docEnd d) (indexFromPos d r + 1)) with (docEnd d) in Hstop by lia.
      rewrite isMarkOrWhitespace_end in Hstop. discriminate. }
    split; [lia|]. split; [|split; [|done]].
    + right. split; [|done]. destruct Hr as [->|[Hr _]]; [|done].
      unfold nextPosition. by rewrite posFromIndex_index.
    + intros j Hj. destruct (decide (Z.min (docEnd d) (indexFromPos d p + 1) < j)) as [Hj'|Hj'].
      * apply Hrun. lia.
      * replace j with (indexFromPos d p + 1) by lia. exact Hs.
Qed.

Lemma extendFrom_never_throws (fuel : nat) d p : extendFrom fuel d p <> Some Throw.
Proof.
  revert p. induction fuel as [|fuel IH]; intros p; cbn [extendFrom]; [discriminate|].
  destruct (isMarkOrWhitespace_total d (indexFromPos d p - 1)) as [b Hb].
  unfold previousPosition. rewrite Hb. destruct b; [discriminate|apply IH].
Qed.

Lemma extendTo_never_throws (fuel : nat) d p : extendTo fuel d p <> Some Throw.
Proof.
  revert p. induction fuel as [|fuel IH]; intros p; cbn [extendTo]; [discriminate|].
  destruct (isMarkOrWhitespace_total d (indexFromPos d p + 1)) as [b Hb].
  unfold nextPosition. rewrite Hb. destruct b; [discriminate|apply IH].
Qed.

Lemma extendFrom_more_fuel (fuel extra : nat) d p r :
  extendFrom fuel d p = Some r -> extendFrom (fuel + extra) d p = Some r.
Proof.
  revert p. induction fuel as [|fuel IH]; intros p; cbn [extendFrom Nat.add]; [discriminate|].
  destruct (isMarkOrWhitespace d (previousPosition d p)) as [[|]|]; auto.
Qed.

Lemma extendTo_more_fuel (fuel extra : nat) d p r :
  extendTo fuel d p = Some r -> extendTo (fuel + extra) d p = Some r.
Proof.
  revert p. induction fuel as [|fuel IH]; intros p; cbn [extendTo Nat.add]; [discriminate|].
  destruct (isMarkOrWhitespace d (nextPosition d p)) as [[|]|]; auto.
Qed.

(** A stop somewhere before the position ends the first loop. *)
Lemma extendFrom_reaches d (n : nat) : forall p j,
  0 <= j -> indexFromPos d p - Z.of_nat n <= j <= Z.max 0 (indexFromPos d p - 1) ->
  isMarkOrWhitespace d (posFromIndex d j) = Normal true ->
  exists fuel r, extendFrom fuel d p = Some (Normal r).
Proof.
  induction n as [|n IH]; intros p j Hj0 Hj Hstop;
    pose proof (indexFromPos_range d p) as Hp;
    (destruct (isMarkOrWhitespace d (previousPosition d p)) as [[|]|] eqn:Hb;
     [ exists 1%nat, p; cbn [extendFrom]; by rewrite Hb
     | | by destruct (isMarkOrWhitespace_total d (indexFromPos d p - 1)) as [? ?];
           unfold previousPosition in Hb; congruence ]).
  - rewrite previousPosition_clamped in Hb.
    replace (Z.max 0 (indexFromPos d p - 1)) with j in Hb by lia. congruence.
  - assert (j <> Z.max 0 (indexFromPos d p - 1)).
    { intros ->. rewrite previousPosition_clamped in Hb. congruence. }
    destruct (IH (previousPosition d p) j) as (fuel & r & Hr); [done| |done|].
    + rewrite index_previousPosition. lia.
    + exists (S fuel), r. cbn [extendFrom]. by rewrite Hb.
Qed.

Lemma extendFrom_terminates d p (j : Z) :
  j < indexFromPos d p ->
  isMarkOrWhitespace d (posFromIndex d j) = Normal true ->
  exists fuel r, extendFrom fuel d p = Some (Normal r).
Proof.
  intros Hj Hstop. pose proof (indexFromPos_range d p).
  apply (extendFrom_reaches d (Z.to_nat (indexFromPos d p)) p (Z.max 0 j)); [lia|lia|].
  destruct (Z.le_gt_cases 0 j); [by replace (Z.max 0 j) with j by lia|].
  rewrite posFromIndex_negative in Hstop by lia.
  by rewrite posFromIndex_negative by lia.
Qed.

(** A stop somewhere after the position ends the second loop. *)
Lemma extendTo_reaches d (n : nat) : forall p j,
  j <= docEnd d ->
  Z.min (docEnd d) (indexFromPos d p + 1) <= j <= indexFromPos d p + Z.of_nat n ->
  isMarkOrWhitespace d (posFromIndex d j) = Normal true ->
  exists fuel r, extendTo fuel d p = Some (Normal r).
Proof.
  induction n as [|n IH]; intros p j Hj0 Hj Hstop;
    pose proof (indexFromPos_range d p) as Hp;
    (destruct (isMarkOrWhitespace d (nextPosition d p)) as [[|]|] eqn:Hb;
     [ exists 1%nat, p; cbn [extendTo]; by rewrite Hb
     | | by destruct (isMarkOrWhitespace_total d (indexFromPos d p + 1)) as [? ?];
           unfold nextPosition in Hb; congruence ]).
  - rewrite nextPosition_clamped in Hb.
    replace (Z.min (docEnd d) (indexFromPos d p + 1)) with j in Hb by lia. congruence.
  - assert (j <> Z.min (docEnd d) (indexFromPos d p + 1)).
    { intros ->. rewrite nextPosition_clamped in Hb. congruence. }
    destruct (IH (nextPosition d p) j) as (fuel & r & Hr); [done| |done|].
    + rewrite index_nextPosition. lia.
    + exists (S fuel), r. cbn [extendTo]. by rewrite Hb.
Qed.

Lemma extendTo_terminates d p (j : Z) :
  indexFromPos d p < j ->
  isMarkOrWhitespace d (posFromIndex d j) = Normal true ->
  exists fuel r, extendTo fuel d p = Some (Normal r).
Proof.
  intros Hj Hstop. pose proof (indexFromPos_range d p).
  assert (j < docEnd d).
  { destruct (Z.le_gt_cases (docEnd d) j); [|done].
    rewrite posFromIndex_beyond, isMarkOrWhitespace_end in Hstop by done. discriminate. }
  apply (extendTo_reaches d (Z.to_nat (j - indexFromPos d p)) p j); [lia|lia|done].
Qed.


(** Both loops end when each meets a stop. *)
Lemma getHintRangeFromCursor_terminates d cursor (j1 j2 : Z) :
  j1 < indexFromPos d cursor ->
  isMarkOrWhitespace d (posFromIndex d j1) = Normal true ->
  indexFromPos d cursor < j2 ->
  isMarkOrWhitespace d (posFromIndex d j2) = Normal true ->
  exists fuel r, getHintRangeFromCursor fuel d cursor = Some (Normal r).
Proof.
  intros Hj1 Hs1 Hj2 Hs2.
  destruct (extendFrom_terminates d cursor j1 Hj1 Hs1) as (fuel1 & f & Hf).
  destruct (extendTo_terminates d cursor j2 Hj2 Hs2) as (fuel2 & t & Ht).
  exists (fuel1 + fuel2)%nat, {| from := f; to := t |}.
  unfold getHintRangeFromCursor.
  rewrite (extendFrom_more_fuel fuel1 fuel2 d cursor _ Hf).
  rewrite Nat.add_comm.
  by rewrite (extendTo_more_fuel fuel2 fuel1 d cursor _ Ht).
Qed.

(** ** The documents the component maintains *)

Lemma authorDoc_posFromIndex body handles (j : Z) :
  0 <= j <= strlen (labelText ++ body ++ placeholderText) ->
  posFromIndex (authorDoc body handles) j = Pos 0 j.
Proof.
  intros Hj. unfold posFromIndex, lines, authorDoc.
  cbn [firstLine moreLines posFromIndexIter].
  destruct (Z.gtb_spec (strlen (labelText ++ body ++ placeholderText) + 1) j); [|lia].
  apply clipPos_id. exists (labelText ++ body ++ placeholderText). cbn [line ch].
  split; [done|lia].
Qed.

Lemma authorDoc_indexFromPos body handles (j : Z) :
  0 <= j <= strlen (labelText ++ body ++ placeholderText) ->
  indexFromPos (authorDoc body handles) (Pos 0 j) = j.
Proof.
  intros Hj.
  pose proof (indexFromPos_at (authorDoc body handles) 0
                (labelText ++ body ++ placeholderText) j eq_refl Hj) as Hix.
  simpl in Hix. change (Z.of_nat 0) with 0 in Hix. lia.
Qed.

Lemma authorDoc_strlen body :
  strlen (labelText ++ body ++ placeholderText) = 20 + strlen body.
Proof. unfold strlen. rewrite !length_app. simpl. lia. Qed.

(** The blank that ends the label stops the first loop. *)
Lemma authorDoc_label_stops body handles :
  isMarkOrWhitespace (authorDoc body handles)
    (posFromIndex (authorDoc body handles) 10) = Normal true.
Proof.
  pose proof (authorDoc_strlen body). pose proof (strlen_nonneg body).
  rewrite authorDoc_posFromIndex by lia.
  unfold isMarkOrWhitespace.
  assert (getLine (authorDoc body handles) (line (Pos 0 10))
          = Some (labelText ++ body ++ placeholderText)) as -> by done.
  cbn [ch].
  assert (charAt (labelText ++ body ++ placeholderText) 10 = Some 32) as ->; [|done].
  unfold charAt. destruct (Z.ltb_spec 10 0); [lia|].
  rewrite lookup_app_l by (simpl; lia). done.
Qed.

(** The inside of the placeholder stops the second loop. *)
Lemma authorDoc_placeholder_stops body handles :
  isMarkOrWhitespace (authorDoc body handles)
    (posFromIndex (authorDoc body handles) (12 + strlen body)) = Normal true.
Proof.
  pose proof (authorDoc_strlen body) as Hlen. pose proof (strlen_nonneg body) as Hb.
  rewrite authorDoc_posFromIndex by lia.
  unfold isMarkOrWhitespace.
  assert (getLine (authorDoc body handles) (line (Pos 0 (12 + strlen body)))
          = Some (labelText ++ body ++ placeholderText)) as -> by done.
  cbn [ch].
  assert (charAt (labelText ++ body ++ placeholderText) (12 + strlen body) = Some 117) as ->.
  { unfold charAt. destruct (Z.ltb_spec (12 + strlen body) 0); [lia|].
    rewrite lookup_app_r by (simpl; lia). rewrite lookup_app_r by (unfold strlen in *; simpl; lia).
    replace (Z.to_nat (12 + strlen body) - length labelText - length body)%nat with 1%nat
      by (unfold strlen in *; simpl; lia).
    done. }
  change (isWhitespace (Some 117)) with false. cbn iota.
  unfold posIsInsideMarkedText, findMarksAt.
  rewrite clipPos_id.
  2:{ exists (labelText ++ body ++ placeholderText). cbn [line ch]. split; [done|lia]. }
  rewrite authorDoc_indexFromPos by lia.
  pose proof (authorDoc_indexFromPos body handles (11 + strlen body) ltac:(lia)) as Hfrom.
  pose proof (authorDoc_indexFromPos body handles (11 + strlen body + 9) ltac:(lia)) as Hto.
  set (d := authorDoc body handles) in *.
  assert (markers d =
            mkMarker "label" (Some (Pos 0 0, Pos 0 11)) None
            :: mkMarker "placeholder"
                 (Some (Pos 0 (11 + strlen body), Pos 0 (11 + strlen body + 9))) None
            :: handles) as -> by reflexivity.
  cbn [List.filter find].
  assert (posLe (Pos 0 0) (Pos 0 (12 + strlen body))
          && posLe (Pos 0 (12 + strlen body)) (Pos 0 11) = false) as ->.
  { apply andb_false_iff. right. apply not_true_is_false. rewrite posLe_spec.
    cbn [line ch]. lia. }
  assert (posLe (Pos 0 (11 + strlen body)) (Pos 0 (12 + strlen body))
          && posLe (Pos 0 (12 + strlen body)) (Pos 0 (11 + strlen body + 9)) = true) as ->.
  { apply andb_true_iff. rewrite !posLe_spec. cbn [line ch]. lia. }
  cbn [insideSomeMark find]. rewrite Hfrom, Hto.
  destruct (Z.gtb_spec (12 + strlen body) (11 + strlen body)); [|lia].
  destruct (Z.ltb_spec (12 + strlen body) (11 + strlen body + 9)); [done|lia].
Qed.

(** Between the label and the placeholder the scan always ends: the design
    of the component bounds it on both sides. *)
Lemma hint_range_terminates_in_authorDoc body handles cursor :
  strlen labelText <= indexFromPos (authorDoc body handles) cursor
                   <= strlen labelText + strlen body ->
  exists fuel r,
    getHintRangeFromCursor fuel (authorDoc body handles) cursor = Some (Normal r).
Proof.
  change (strlen labelText) with 11. intros Hc.
  apply (getHintRangeFromCursor_terminates _ _ 10 (12 + strlen body));
    [lia|apply authorDoc_label_stops|lia|apply authorDoc_placeholder_stops].
Qed.

(** ** Marked ranges and line ends under the stop test *)

Lemma insideSomeMark_intro d (ix : Z) marks m markFrom markTo :
  Forall (fun m => is_Some (find m)) marks ->
  In m marks -> find m = Some (markFrom, markTo) ->
  indexFromPos d markFrom < ix < indexFromPos d markTo ->
  insideSomeMark d ix marks = Normal true.
Proof.
  intros Hall Hin Hm Hr. induction Hall as [|m0 marks [[f t] Hm0] _ IH];
    cbn [insideSomeMark]; [destruct Hin|].
  rewrite Hm0.
  destruct (Z.gtb_spec ix (indexFromPos d f)), (Z.ltb_spec ix (indexFromPos d t));
    cbn [andb]; try done.
  all: destruct Hin as [->|Hin]; [|by apply IH].
  all: rewrite Hm in Hm0; injection Hm0 as <- <-; lia.
Qed.

(** A marker of the document whose two ends have the index of the position
    strictly between theirs is among those [findMarksAt] returns. *)
Lemma posIsInsideMarkedText_intro d p m markFrom markTo :
  In m (markers d) -> find m = Some (markFrom, markTo) ->
  indexFromPos d markFrom < indexFromPos d p < indexFromPos d markTo ->
  posIsInsideMarkedText d p = Normal true.
Proof.
  intros Hin Hm Hr. unfold posIsInsideMarkedText.
  apply (insideSomeMark_intro d _ _ m markFrom markTo); [apply findMarksAt_found| |done|done].
  unfold findMarksAt. apply List.filter_In. split; [done|]. rewrite Hm.
  rewrite <- (indexFromPos_clip d p) in Hr. apply andb_true_iff. split.
  - apply (posLe_after d); [apply clipPos_valid|lia].
  - apply (posLe_before d); [apply clipPos_valid|lia].
Qed.

(** The inside of a marked range stops the scan. *)
Lemma marked_inside_stops d m markFrom markTo (j : Z) :
  In m (markers d) -> find m = Some (markFrom, markTo) ->
  indexFromPos d markFrom < j < indexFromPos d markTo ->
  isMarkOrWhitespace d (posFromIndex d j) = Normal true.
Proof.
  intros Hin Hm Hr.
  pose proof (indexFromPos_range d markFrom). pose proof (indexFromPos_range d markTo).
  assert (Hix : indexFromPos d (posFromIndex d j) = j).
  { rewrite index_of_posFromIndex. lia. }
  unfold isMarkOrWhitespace.
  destruct (posFromIndex_valid d j) as (l & Hl & Hn & Hc).
  assert (getLine d (line (posFromIndex d j)) = Some l) as -> by by apply getLine_Some.
  destruct (isWhitespace _); [done|].
  apply (posIsInsideMarkedText_intro d _ m markFrom markTo); [done|done|]. by rewrite Hix.
Qed.

(** At the end of a line the line has no character for the white space
    test: only a marked range can stop the scan there. *)
Lemma isMarkOrWhitespace_line_end d p l :
  getLine d (line p) = Some l -> ch p = strlen l ->
  isMarkOrWhitespace d p = posIsInsideMarkedText d p.
Proof.
  intros Hl Hc. unfold isMarkOrWhitespace. rewrite Hl, Hc.
  assert (charAt l (strlen l) = None) as ->; [|done].
  unfold charAt. pose proof (strlen_nonneg l).
  destruct (Z.ltb_spec (strlen l) 0); [done|].
  apply lookup_ge_None. unfold strlen. lia.
Qed.

(** Index arithmetic only looks at the text of the document. *)
Lemma indexFromPos_lines d d' p :
  lines d = lines d' -> indexFromPos d p = indexFromPos d' p.
Proof.
  intros Hl. unfold indexFromPos, clipPos, lineLength, getLine, size. by rewrite Hl.
Qed.

(** C2, as the code has it. Whenever [getHintRangeFromCursor] returns
    [{from, to}], the cursor lies between [from] and [to], in the order of
    positions and in the order of indices; each of the two is the cursor
    itself or the position of its index; every position the loops moved onto
    (the indices from [from] up to the cursor and from the cursor up to [to],
    the cursor's own position apart, which no loop tests) is neither white
    space nor strictly inside a marked range; the position one step before
    [from] and the position one step after [to] are each white space or
    inside a marked range; and at the end of a line, where the line has no
    character, the test is that for a marked range alone, so that the loops
    pass over a line break. *)
Theorem hint_range_is_unmarked_run (fuel : nat) (d : Doc) (cursor : Position) (r : HintRange) :
  getHintRangeFromCursor fuel d cursor = Some (Normal r) ->
  (posLe (from r) cursor = true /\ posLe cursor (to r) = true) /\
  indexFromPos d (from r) <= indexFromPos d cursor <= indexFromPos d (to r) /\
  (from r = cursor \/ from r = posFromIndex d (indexFromPos d (from r))) /\
  (to r = cursor \/ to r = posFromIndex d (indexFromPos d (to r))) /\
  (forall j, indexFromPos d (from r) <= j < indexFromPos d cursor ->
             isMarkOrWhitespace d (posFromIndex d j) = Normal false) /\
  (forall j, indexFromPos d cursor < j <= indexFromPos d (to r) ->
             isMarkOrWhitespace d (posFromIndex d j) = Normal false) /\
  isMarkOrWhitespace d (previousPosition d (from r)) = Normal true /\
  isMarkOrWhitespace d (nextPosition d (to r)) = Normal true /\
  (forall p l, getLine d (line p) = Some l -> ch p = strlen l ->
               isMarkOrWhitespace d p = posIsInsideMarkedText d p).
Proof.
  unfold getHintRangeFromCursor.
  destruct (extendFrom fuel d cursor) as [[f|]|] eqn:Hf; try discriminate.
  destruct (extendTo fuel d cursor) as [[t|]|] eqn:Ht; try discriminate.
  intros [= <-]. cbn [from to].
  apply extendFrom_sound in Hf as (Hf1 & Hf2 & Hf3 & Hf4).
  apply extendTo_sound in Ht as (Ht1 & Ht2 & Ht3 & Ht4).
  split; [split|].
  - destruct Hf2 as [->|[Hv Hlt]]; [apply posLe_refl|].
    apply (posLe_before d); [|done]. rewrite Hv. apply posFromIndex_valid.
  - destruct Ht2 as [->|[Hv Hlt]]; [apply posLe_refl|].
    apply (posLe_after d); [|done]. rewrite Hv. apply posFromIndex_valid.
  - split; [lia|]. split; [tauto|]. split; [tauto|].
    split; [done|]. split; [done|]. split; [done|]. split; [done|].
    intros p l. apply isMarkOrWhitespace_line_end.
Qed.

(** C9, as the code has it. [previousPosition] and [nextPosition] clamp
    the index at the two ends of the document, where the position then
    repeats; the two loops never throw; they both terminate exactly when
    an index before the cursor's and an index after it are stopped at, that
    is, lead through [posFromIndex] to white space or into a marked range;
    and they do terminate, on a document of however many lines, whenever a
    marked range of two characters or more ends at the cursor or before it
    and another one starts at the cursor or after it. *)
Theorem hint_range_terminates_iff (d : Doc) (cursor : Position) :
  (indexFromPos d (previousPosition d cursor) = Z.max 0 (indexFromPos d cursor - 1) /\
   indexFromPos d (nextPosition d cursor) = Z.min (docEnd d) (indexFromPos d cursor + 1)) /\
  (forall fuel, getHintRangeFromCursor fuel d cursor <> Some Throw) /\
  ((exists fuel r, getHintRangeFromCursor fuel d cursor = Some (Normal r))
   <-> (exists j, j < indexFromPos d cursor /\
                  isMarkOrWhitespace d (posFromIndex d j) = Normal true) /\
       (exists j, indexFromPos d cursor < j /\
                  isMarkOrWhitespace d (posFromIndex d j) = Normal true)) /\
  (forall before after beforeFrom beforeTo afterFrom afterTo,
     In before (markers d) -> find before = Some (beforeFrom, beforeTo) ->
     In after (markers d) -> find after = Some (afterFrom, afterTo) ->
     indexFromPos d beforeFrom + 2 <= indexFromPos d beforeTo ->
     indexFromPos d beforeTo <= indexFromPos d cursor ->
     indexFromPos d cursor <= indexFromPos d afterFrom ->
     indexFromPos d afterFrom + 2 <= indexFromPos d afterTo ->
     exists fuel r, getHintRangeFromCursor fuel d cursor = Some (Normal r)).
Proof.
  split; [split; [apply index_previousPosition|apply index_nextPosition]|].
  split; [|split].
  - intros fuel. unfold getHintRangeFromCursor.
    pose proof (extendFrom_never_throws fuel d cursor).
    pose proof (extendTo_never_throws fuel d cursor).
    destruct (extendFrom fuel d cursor) as [[f|]|]; try done.
    by destruct (extendTo fuel d cursor) as [[t|]|].
  - split.
    + intros (fuel & r & Hr). unfold getHintRangeFromCursor in Hr.
      destruct (extendFrom fuel d cursor) as [[f|]|] eqn:Hf; try discriminate.
      destruct (extendTo fuel d cursor) as [[t|]|] eqn:Ht; try discriminate.
      apply extendFrom_sound in Hf as (Hf1 & _ & _ & Hf4).
      apply extendTo_sound in Ht as (Ht1 & _ & _ & Ht4).
      split.
      * exists (indexFromPos d f - 1). split; [lia|done].
      * exists (indexFromPos d t + 1). split; [lia|done].
    + intros [(j1 & Hj1 & Hs1) (j2 & Hj2 & Hs2)].
      by apply (getHintRangeFromCursor_terminates d cursor j1 j2).
  - intros before after bf bt af at_ Hb Hbf Ha Haf Hblen Hbc Hca Halen.
    apply (getHintRangeFromCursor_terminates d cursor
             (indexFromPos d bt - 1) (indexFromPos d af + 1)).
    + lia.
    + apply (marked_inside_stops d before bf bt); [done|done|lia].
    + lia.
    + apply (marked_inside_stops d after af at_); [done|done|lia].
Qed.

(** C3, as the code has it. After a change, the handler asks for the
    suggestion list exactly when no completion is active, nothing is
    selected, the position before the cursor is not strictly inside a marked
    range, and the text from that position to the cursor is ["@"]; and the
    handler never throws. *)
Theorem changes_handler_shows_hint_iff (a : AuthorInput) :
  let d := doc a in
  let previousPos := previousPosition d (getCursor a) in
  (onChanges a = Normal true
   <-> hintActive a = false /\ somethingSelected a = false /\
       posIsInsideMarkedText d previousPos = Normal false /\
       getRange d previousPos (getCursor a) = units "@") /\
  onChanges a <> Throw.
Proof.
  cbn zeta. unfold onChanges.
  destruct (posIsInsideMarkedText_total (doc a)
              (previousPosition (doc a) (getCursor a))) as [inside ->].
  destruct (hintActive a), (somethingSelected a), inside; cbn [negb mbind Completion_bind].
  all: try (split; [split; [discriminate|by intros (? & ? & ? & ?)]|discriminate]).
  unfold jsstringEq. case_bool_decide as Heq.
  - split; [by split|discriminate].
  - split; [split; [discriminate|by intros (_ & _ & _ & ?)]|discriminate].
Qed.

(** C6. When the handler of ['cursorActivity'] runs with its two markers in
    the document, it does not throw, and afterwards the placeholder marker is
    collapsed exactly when the index of the label's end differs from the
    index of the placeholder's start (and explicitly not collapsed when the
    two are equal); the text, the marked ranges and the component's
    references are as before. *)
Theorem cursor_activity_syncs_placeholder (a : AuthorInput) (l p : nat)
    (labelMarker placeholderMarker : ActualTextMarker)
    (labelRange placeholderRange : Position * Position) :
  label a = Some l -> placeholder a = Some p ->
  markers (doc a) !! l = Some labelMarker ->
  markers (doc a) !! p = Some placeholderMarker ->
  find labelMarker = Some labelRange ->
  find placeholderMarker = Some placeholderRange ->
  exists a' labelMarker' placeholderMarker',
    onCursorActivity a = Normal a' /\
    markers (doc a') !! l = Some labelMarker' /\
    markers (doc a') !! p = Some placeholderMarker' /\
    find labelMarker' = Some labelRange /\
    find placeholderMarker' = Some placeholderRange /\
    (collapsed placeholderMarker' = Some true
     <-> indexFromPos (doc a') (snd labelRange)
         <> indexFromPos (doc a') (fst placeholderRange)) /\
    (collapsed placeholderMarker' = Some false
     <-> indexFromPos (doc a') (snd labelRange)
         = indexFromPos (doc a') (fst placeholderRange)) /\
    lines (doc a') = lines (doc a) /\
    label a' = label a /\ placeholder a' = placeholder a /\
    hintActive a' = hintActive a.
Proof.
  intros Hl Hp Hlm Hpm Hlr Hpr. unfold onCursorActivity.
  rewrite Hl, Hp, Hlm, Hpm, Hlr, Hpr.
  set (collapse := negb (indexFromPos (doc a) (snd labelRange)
                         =? indexFromPos (doc a) (fst placeholderRange))).
  assert (Hcollapse : forall d', lines d' = lines (doc a) ->
            (Some collapse = Some true
             <-> indexFromPos d' (snd labelRange) <> indexFromPos d' (fst placeholderRange)) /\
            (Some collapse = Some false
             <-> indexFromPos d' (snd labelRange) = indexFromPos d' (fst placeholderRange))).
  { intros d' Hd'. rewrite !(indexFromPos_lines d' (doc a)) by done. subst collapse.
    destruct (Z.eqb_spec (indexFromPos (doc a) (snd labelRange))
                         (indexFromPos (doc a) (fst placeholderRange))); cbn [negb].
    - split; split; (done || discriminate).
    - split; split; (done || discriminate || by intros [=]). }
  case_bool_decide as Hchanged.
  - pose proof (lookup_lt_Some _ _ _ Hpm) as Hlen.
    eexists _, (if decide (l = p) then setCollapsed collapse placeholderMarker
                else labelMarker), (setCollapsed collapse placeholderMarker).
    split; [reflexivity|]. unfold withMarkers. cbn [doc markers label placeholder hintActive].
    split.
    { destruct (decide (l = p)) as [->|Hne].
      - by apply list_lookup_insert_eq.
      - by rewrite list_lookup_insert_ne. }
    split; [by apply list_lookup_insert_eq|].
    split; [destruct (decide (l = p)) as [->|]; cbn [setCollapsed find]; congruence|].
    split; [done|]. cbn [setCollapsed collapsed].
    destruct (Hcollapse {| firstLine := firstLine (doc a); moreLines := moreLines (doc a);
                           markers := <[p:=setCollapsed collapse placeholderMarker]>
                                        (markers (doc a)) |} eq_refl).
    auto 10.
  - exists a, labelMarker, placeholderMarker.
    assert (Hsame : collapsed placeholderMarker = Some collapse).
    { destruct (decide (collapsed placeholderMarker = Some collapse)); [done|]. by destruct Hchanged. }
    rewrite Hsame. destruct (Hcollapse (doc a) eq_refl). auto 15.
Qed.

End DocFacts.

(* ===================================================================== *)
(** * Part V. Worked examples                                             *)
(* ===================================================================== *)

(** ** The dialog *)

(** The older check resolves last and with [true]; the dialog keeps showing
    the verdict [false] of the newer one. *)
Lemma token_guard_shows_latest_check_witness :
  @reachable exampleEnvironment overtaken overtakenComponent /\
  path (state overtakenComponent) = "~/b"%string /\
  forall b, isGitRepository (state overtakenComponent) = Some b
            <-> CheckResolved 2 b ∈ overtaken.
Proof.
  assert (Hreach : @reachable exampleEnvironment overtaken overtakenComponent)
    by (by apply reachable_run).
  split; [exact Hreach|].
  destruct (@token_guard_shows_latest_check exampleEnvironment overtaken
              overtakenComponent Hreach) as (_ & _ & _ & Hshown).
  exact (Hshown "~/b"%string eq_refl).
Defined.

(** The claim C5 read for every failing check: the flag would be pending or
    negative afterwards.  It is [true] after the overtaken check fails. *)
Lemma stale_rejection_leaves_true_flag :
  ~ (forall h c token c',
       @reachable exampleEnvironment h c ->
       @fire exampleEnvironment (CheckRejected token) c = Some c' ->
       isGitRepository (state c') = None \/ isGitRepository (state c') = Some false).
Proof.
  intros Hclaim.
  assert (Hreach : @reachable exampleEnvironment newerResolved newerResolvedComponent)
    by (by apply reachable_run).
  destruct (Hclaim _ newerResolvedComponent 1
              {| state := state newerResolvedComponent;
                 checkGitRepositoryToken := 2; suspended := [] |}
              Hreach eq_refl) as [Hflag|Hflag]; discriminate.
Qed.

(** The only check issued fails: the flag stays pending. *)
Lemma rejected_check_changes_nothing_witness :
  @reachable exampleEnvironment inFlight inFlightComponent /\
  @fire exampleEnvironment (CheckRejected 1) inFlightComponent
    = Some {| state := state inFlightComponent; checkGitRepositoryToken := 1;
              suspended := [] |} /\
  isGitRepository (state inFlightComponent) = None.
Proof.
  assert (Hreach : @reachable exampleEnvironment inFlight inFlightComponent)
    by (by apply reachable_run).
  split; [exact Hreach|]. split; [reflexivity|].
  destruct (@rejected_check_changes_nothing exampleEnvironment inFlight inFlightComponent 1
              {| state := state inFlightComponent; checkGitRepositoryToken := 1;
                 suspended := [] |} Hreach eq_refl) as (_ & _ & _ & _ & Hpending).
  exact (Hpending eq_refl).
Defined.

(** The claim C10 read for every check in flight: the overtaken check is
    still suspended when the newer one has resolved, and the button is
    enabled. *)
Lemma stale_check_in_flight_button_enabled :
  ~ (forall h c k,
       @reachable exampleEnvironment h c -> k ∈ suspended c ->
       submitDisabled (render (state c)) = true).
Proof.
  intros Hclaim.
  assert (Hreach : @reachable exampleEnvironment newerResolved newerResolvedComponent)
    by (by apply reachable_run).
  assert (Hk : olderCheck ∈ suspended newerResolvedComponent)
    by (apply elem_of_cons; by left).
  specialize (Hclaim _ _ _ Hreach Hk). discriminate.
Qed.

(** While the check of ["~/a"] is in flight the button is disabled. *)
Lemma submit_disabled_iff_witness :
  @reachable exampleEnvironment inFlight inFlightComponent /\
  submitDisabled (render (state inFlightComponent)) = true.
Proof.
  assert (Hreach : @reachable exampleEnvironment inFlight inFlightComponent)
    by (by apply reachable_run).
  split; [exact Hreach|].
  destruct (@submit_disabled_iff exampleEnvironment inFlight inFlightComponent Hreach)
    as (_ & _ & Hflight).
  apply (Hflight {| pendingToken := 1; pendingPath := "/home/ada/a" |}); [|reflexivity].
  apply elem_of_cons. by left.
Defined.

(** ** The author input *)

(** With the cursor inside ["@fo"] the hint range is the whole of it. *)
Lemma hint_range_is_unmarked_run_witness :
  getHintRangeFromCursor 20 typedDoc (Pos 0 12) = Some (Normal typedRange) /\
  (posLe (from typedRange) (Pos 0 12) = true /\ posLe (Pos 0 12) (to typedRange) = true) /\
  indexFromPos typedDoc (from typedRange) <= indexFromPos typedDoc (Pos 0 12)
    <= indexFromPos typedDoc (to typedRange) /\
  isMarkOrWhitespace typedDoc (previousPosition typedDoc (from typedRange)) = Normal true /\
  isMarkOrWhitespace typedDoc (nextPosition typedDoc (to typedRange)) = Normal true.
Proof.
  split; [reflexivity|].
  destruct (hint_range_is_unmarked_run 20 typedDoc (Pos 0 12) typedRange eq_refl)
    as (Horder & Hindex & _ & _ & _ & _ & Hbefore & Hafter & _).
  auto.
Defined.

(** The claim C2 read for every position of the range returned: with the
    cursor between the ["a"] and the blank of ["a b"], the first loop stops at
    the blank of the label and the second inside the placeholder, having
    tested the ["b"] but never the blank at the cursor: the range is the whole
    of ["a b"]. *)
Lemma hint_range_holds_blank_at_cursor :
  ~ (forall fuel d cursor r,
       getHintRangeFromCursor fuel d cursor = Some (Normal r) ->
       forall j, indexFromPos d (from r) <= j < indexFromPos d (to r) ->
                 isMarkOrWhitespace d (posFromIndex d j) = Normal false).
Proof.
  intros Hclaim.
  assert (Hrun : getHintRangeFromCursor 20 blankDoc (Pos 0 12)
                 = Some (Normal {| from := Pos 0 11; to := Pos 0 14 |}))
    by (vm_compute; reflexivity).
  assert (Hin : indexFromPos blankDoc (from {| from := Pos 0 11; to := Pos 0 14 |}) <= 12
                < indexFromPos blankDoc (to {| from := Pos 0 11; to := Pos 0 14 |}))
    by (vm_compute; split; [discriminate|reflexivity]).
  assert (Hblank : isMarkOrWhitespace blankDoc (posFromIndex blankDoc 12) = Normal true)
    by (vm_compute; reflexivity).
  pose proof (Hclaim _ _ _ _ Hrun 12 Hin) as Hno.
  rewrite Hblank in Hno. discriminate Hno.
Qed.

Lemma plainDoc_extendFrom_diverges (fuel : nat) :
  extendFrom fuel plainDoc (Pos 0 0) = None.
Proof.
  induction fuel as [|fuel IH]; [done|]. cbn [extendFrom].
  change (previousPosition plainDoc (Pos 0 0)) with (Pos 0 0).
  by change (isMarkOrWhitespace plainDoc (Pos 0 0)) with (@Normal bool false).
Qed.

(** The same happens at the start of a document of the component, should the
    cursor ever stand before the label. *)
Lemma authorDoc_extendFrom_diverges (fuel : nat) :
  extendFrom fuel typedDoc (Pos 0 0) = None.
Proof.
  induction fuel as [|fuel IH]; [done|]. cbn [extendFrom].
  change (previousPosition typedDoc (Pos 0 0)) with (Pos 0 0).
  by change (isMarkOrWhitespace typedDoc (Pos 0 0)) with (@Normal bool false).
Qed.

(** The claim C9 read for every document: on a document of one letter
    without markers the scan never returns, because the clamped position at
    the start repeats and does not stop it. *)
Lemma hint_range_scan_diverges :
  ~ (forall d cursor, exists fuel r, getHintRangeFromCursor fuel d cursor = Some r).
Proof.
  intros Hclaim. destruct (Hclaim plainDoc (Pos 0 0)) as (fuel & r & Hr).
  unfold getHintRangeFromCursor in Hr.
  by rewrite plainDoc_extendFrom_diverges in Hr.
Qed.

(** In the typed document the blank of the label and the inside of the
    placeholder stop the scan; in the document of two lines, the cursor on
    the second, the label and the placeholder bound it. *)
Lemma hint_range_terminates_iff_witness :
  (exists fuel r, getHintRangeFromCursor fuel typedDoc (Pos 0 12) = Some (Normal r)) /\
  (exists fuel r, getHintRangeFromCursor fuel twoLineDoc (Pos 1 1) = Some (Normal r)).
Proof.
  split.
  - destruct (hint_range_terminates_iff typedDoc (Pos 0 12)) as (_ & _ & Hiff & _).
    apply Hiff. split.
    + exists 10. split; [reflexivity|reflexivity].
    + exists 15. split; [reflexivity|reflexivity].
  - destruct (hint_range_terminates_iff twoLineDoc (Pos 1 1)) as (_ & _ & _ & Hbounded).
    apply (Hbounded
             {| className := "label"; find := Some (Pos 0 0, Pos 0 11); collapsed := None |}
             {| className := "placeholder"; find := Some (Pos 1 3, Pos 1 12);
                collapsed := None |}
             (Pos 0 0) (Pos 0 11) (Pos 1 3) (Pos 1 12)).
    + left. reflexivity.
    + reflexivity.
    + right. left. reflexivity.
    + reflexivity.
    + vm_compute. discriminate.
    + vm_compute. discriminate.
    + vm_compute. discriminate.
    + vm_compute. discriminate.
Defined.

(** The claim C3 read for every state after a change: with the ["@"]
    selected it stands right before the cursor, and the handler returns
    without asking for the list. *)
Lemma at_sign_selected_opens_nothing :
  ~ (forall a,
       getRange (doc a) (previousPosition (doc a) (getCursor a)) (getCursor a) = units "@" ->
       onChanges a = Normal true).
Proof.
  intros Hclaim. specialize (Hclaim selectedAt eq_refl). discriminate.
Qed.

(** Right after the ["@"] was typed the handler asks for the list. *)
Lemma changes_handler_shows_hint_iff_witness : onChanges typedAt = Normal true.
Proof.
  destruct (changes_handler_shows_hint_iff typedAt) as [Hiff _].
  apply Hiff. repeat split.
Defined.

(** With ["@fo"] between the label and the placeholder, the placeholder gets
    collapsed. *)
Lemma cursor_activity_syncs_placeholder_witness :
  exists a' placeholderMarker',
    onCursorActivity typed = Normal a' /\
    markers (doc a') !! 1%nat = Some placeholderMarker' /\
    collapsed placeholderMarker' = Some true.
Proof.
  destruct (cursor_activity_syncs_placeholder typed 0 1
              {| className := "label"; find := Some (Pos 0 0, Pos 0 11); collapsed := None |}
              {| className := "placeholder"; find := Some (Pos 0 14, Pos 0 23);
                 collapsed := None |}
              (Pos 0 0, Pos 0 11) (Pos 0 14, Pos 0 23)
              eq_refl eq_refl eq_refl eq_refl eq_refl eq_refl)
    as (a' & lm & pm & Hrun & _ & Hpm & _ & _ & Hcollapsed & _ & Hlines & _).
  exists a', pm. split; [done|]. split; [done|]. apply Hcollapsed.
  rewrite !(indexFromPos_lines (doc a') typedDoc) by done. done.
Defined.


(* ===================================================================== *)
(** * Part VI. More about the dialog                                      *)
(* ===================================================================== *)

Section MoreDialogFacts.

Context `{env : Environment}.



(** The suspended call that holds the current token was given the resolved
    form of the path on display. *)
Lemma current_check_path h c :
  reachable h c ->
  forall k, k ∈ suspended c -> pendingToken k = checkGitRepositoryToken c ->
            pendingPath k = untildify (path (state c)).
Proof.
  induction 1 as [|h c ev c' Hreach IH Hf]; [intros k Hk; by apply elem_of_nil in Hk|].
  pose proof (reachable_consistent h c Hreach) as Hc.
  assert (Hissue : forall p, c' = checkIfPathIsRepository p c ->
            forall k, k ∈ suspended c' -> pendingToken k = checkGitRepositoryToken c' ->
                      pendingPath k = untildify (path (state c'))).
  { intros p -> k. cbn [checkIfPathIsRepository suspended state path checkGitRepositoryToken].
    rewrite elem_of_cons. intros [->|Hk]; [done|].
    pose proof (suspended_range _ _ Hc k Hk). lia. }
  destruct ev as [value|[dirs|]|token isRepo|token]; cbn [fire showFilePicker] in Hf.
  - injection Hf as <-. by apply (Hissue value).
  - destruct (dirs !! 0%nat) as [p|]; [|discriminate]. injection Hf as <-.
    by apply (Hissue p).
  - by injection Hf as <-.
  - destruct (resume token (suspended c)) as [[k0 rest]|] eqn:R; [|discriminate].
    injection Hf as <-. cbn [suspended state checkGitRepositoryToken].
    destruct (resume_spec _ _ _ _ R) as (_ & Hin & _).
    intros k Hk Htok.
    assert (path (checkResumed token isRepo c) = path (state c)) as ->.
    { unfold checkResumed. by destruct (negb _). }
    apply IH; [apply Hin; by right|done].
  - destruct (resume token (suspended c)) as [[k0 rest]|] eqn:R; [|discriminate].
    injection Hf as <-. cbn [suspended state checkGitRepositoryToken].
    destruct (resume_spec _ _ _ _ R) as (_ & Hin & _).
    intros k Hk Htok. apply IH; [apply Hin; by right|done].
Qed.

(** X2. The calls suspended at their [await] hold pairwise distinct tokens,
    all of them issued already; so at most one of them holds the current
    token, and that one was asked about the resolved form of the path on
    display: a verdict that is written belongs to the path shown. *)
Theorem suspended_checks_distinct_and_current (h : list Event) (c : Component) :
  reachable h c ->
  NoDup (pendingToken <$> suspended c) /\
  (forall k, k ∈ suspended c -> 1 <= pendingToken k <= checkGitRepositoryToken c) /\
  (forall k k', k ∈ suspended c -> k' ∈ suspended c ->
                pendingToken k = checkGitRepositoryToken c ->
                pendingToken k' = checkGitRepositoryToken c -> k = k') /\
  (forall k, k ∈ suspended c -> pendingToken k = checkGitRepositoryToken c ->
             pendingPath k = untildify (path (state c))).
Proof.
  intros Hreach. pose proof (reachable_consistent h c Hreach) as Hc.
  split; [apply (suspended_once _ _ Hc)|]. split; [apply (suspended_range _ _ Hc)|].
  split; [|by apply current_check_path with h].
  intros k k' Hk Hk' Ht Ht'.
  pose proof (current_check_path h c Hreach k Hk Ht) as Hp.
  pose proof (current_check_path h c Hreach k' Hk' Ht') as Hp'.
  destruct k, k'. cbn in *. congruence.
Qed.

Lemma fire_completion_stale c ev c' :
  isCompletion ev = true ->
  (forall k, k ∈ suspended c -> pendingToken k <> checkGitRepositoryToken c) ->
  fire ev c = Some c' ->
  state c' = state c /\ checkGitRepositoryToken c' = checkGitRepositoryToken c /\
  (forall k, k ∈ suspended c' -> pendingToken k <> checkGitRepositoryToken c').
Proof.
  intros Hev Hstale Hf. destruct ev as [| |token isRepo|token]; try discriminate;
    cbn [fire] in Hf;
    (destruct (resume token (suspended c)) as [[k0 rest]|] eqn:R; [|discriminate]);
    injection Hf as <-; cbn [state checkGitRepositoryToken suspended];
    destruct (resume_spec _ _ _ _ R) as (Hk0 & Hin & _).
  - split; [|split; [done|intros k Hk; apply Hstale, Hin; by right]].
    unfold checkResumed. destruct (Z.eqb_spec token (checkGitRepositoryToken c)); [|done].
    exfalso. apply (Hstale k0); [apply Hin; by left|congruence].
  - split; [done|]. split; [done|]. intros k Hk. apply Hstale, Hin. by right.
Qed.

(** X3. Once the most recently issued check is no longer suspended, the
    state is final until the next path change: whatever checks complete
    afterwards, in whatever order and with whatever verdicts, the path and
    the flag stay as they are. *)
Theorem settled_state_is_stable (c : Component) (evs : list Event) (c' : Component) :
  (forall k, k ∈ suspended c -> pendingToken k <> checkGitRepositoryToken c) ->
  Forall (fun ev => isCompletion ev = true) evs ->
  fireAll evs c = Some c' ->
  state c' = state c /\ checkGitRepositoryToken c' = checkGitRepositoryToken c.
Proof.
  intros Hstale Hevs. revert c Hstale.
  induction Hevs as [|ev evs Hev _ IH]; intros c Hstale; cbn [fireAll].
  - by intros [= <-].
  - destruct (fire ev c) as [c1|] eqn:Hf; [|discriminate]. intros Hrun.
    destruct (fire_completion_stale c ev c1 Hev Hstale Hf) as (Hs & Ht & Hstale1).
    destruct (IH c1 Hstale1 Hrun) as [Hs' Ht']. split; congruence.
Qed.

(** X4. What [render] shows together.  The warning is shown exactly when a
    path is entered and the flag is not [true]: also while the check is
    pending.  Whenever the submit button is enabled the flag is a verdict,
    and the warning tells the two verdicts apart. *)
Theorem warning_and_submit_button (s : IAddExistingRepositoryState) :
  (warningShown (render s) = true
   <-> path s <> EmptyString /\ isGitRepository s <> Some true) /\
  (path s <> EmptyString -> isGitRepository s = None ->
   warningShown (render s) = true /\ submitDisabled (render s) = true) /\
  (submitDisabled (render s) = false ->
   (warningShown (render s) = true <-> isGitRepository s = Some false) /\
   (warningShown (render s) = false <-> isGitRepository s = Some true)).
Proof.
  unfold render, renderWarning. cbn [warningShown submitDisabled].
  assert (Hlen : (String.length (path s) =? 0)%nat = true <-> path s = EmptyString).
  { rewrite Nat.eqb_eq. destruct (path s); simpl; split; (done || discriminate). }
  destruct (String.length (path s) =? 0)%nat eqn:E; destruct (isGitRepository s) as [[|]|];
    cbn [orb truthy]; (split; [|split]); try (intros; discriminate).
  all: try (split; [discriminate|intros [Hp _]; destruct Hp; by apply Hlen]).
  all: try (intros Hp; by destruct Hp; apply Hlen).
  all: try (split; [done|intros [_ Hf]; by destruct Hf]).
  all: try (intros _; split; split; (done || discriminate)).
  all: try (intros _ _; by split).
  all: try (split; [intros _; split; [intros Hp; apply Hlen in Hp; discriminate|discriminate]|done]).
Qed.

End MoreDialogFacts.

(* ===================================================================== *)
(** * Part VII. More about the author input                               *)
(* ===================================================================== *)

Section MoreDocFacts.

Implicit Types (d : Doc) (p : Position).

(** Positions of the document with the same index are the same. *)
Lemma index_injective d p q :
  validPos d p -> validPos d q -> indexFromPos d p = indexFromPos d q -> p = q.
Proof.
  intros Hp Hq Heq.
  destruct (Z.lt_trichotomy (line p) (line q)) as [Hl|[Hl|Hl]].
  - destruct (index_lt_order d q p Hq Hp) as [?|[? ?]]; [|lia|lia].
    rewrite !indexFromPos_valid in * by done.
    destruct Hp as (lp & Hlp & Hnp & Hcp), Hq as (lq & Hlq & Hnq & Hcq).
    pose proof (offsetOfLine_step _ _ _ Hlp).
    pose proof (offsetOfLine_mono (lines d) (S (Z.to_nat (line p))) (Z.to_nat (line q))
                  ltac:(lia)). lia.
  - rewrite !indexFromPos_valid in Heq by done. rewrite Hl in Heq.
    destruct p, q. cbn [line ch] in *. f_equal; lia.
  - rewrite !indexFromPos_valid in * by done.
    destruct Hp as (lp & Hlp & Hnp & Hcp), Hq as (lq & Hlq & Hnq & Hcq).
    pose proof (offsetOfLine_step _ _ _ Hlq).
    pose proof (offsetOfLine_mono (lines d) (S (Z.to_nat (line q))) (Z.to_nat (line p))
                  ltac:(lia)). lia.
Qed.

(** [indexFromPos] followed by [posFromIndex] clips the position. *)
Lemma pos_of_indexFromPos d p : posFromIndex d (indexFromPos d p) = clipPos d p.
Proof.
  apply (index_injective d); [apply posFromIndex_valid|apply clipPos_valid|].
  rewrite index_of_posFromIndex, indexFromPos_clip.
  pose proof (indexFromPos_range d p). lia.
Qed.

(** X5. Stepping forth and back, or back and forth, returns to the position
    (clipped to the document); at the start a step back and at the end a step
    forth stay where they are. *)
Theorem previous_next_round_trip (d : Doc) (p : Position) :
  (indexFromPos d p < docEnd d -> previousPosition d (nextPosition d p) = clipPos d p) /\
  (0 < indexFromPos d p -> nextPosition d (previousPosition d p) = clipPos d p) /\
  (indexFromPos d p = 0 -> previousPosition d p = clipPos d p) /\
  (indexFromPos d p = docEnd d -> nextPosition d p = clipPos d p).
Proof.
  pose proof (indexFromPos_range d p) as Hr.
  split; [|split; [|split]]; intros Hp.
  - unfold previousPosition. rewrite index_nextPosition.
    replace (Z.min (docEnd d) (indexFromPos d p + 1) - 1) with (indexFromPos d p) by lia.
    apply pos_of_indexFromPos.
  - unfold nextPosition. rewrite index_previousPosition.
    replace (Z.max 0 (indexFromPos d p - 1) + 1) with (indexFromPos d p) by lia.
    apply pos_of_indexFromPos.
  - rewrite previousPosition_clamped.
    replace (Z.max 0 (indexFromPos d p - 1)) with (indexFromPos d p) by lia.
    apply pos_of_indexFromPos.
  - rewrite nextPosition_clamped.
    replace (Z.min (docEnd d) (indexFromPos d p + 1)) with (indexFromPos d p) by lia.
    apply pos_of_indexFromPos.
Qed.

(** ** Inside marked text *)

(** X6. [posIsInsideMarkedText] never throws, and it answers [true]
    exactly when some marker of the document has the index of the position
    strictly between the indices of its two ends: the markers that
    [findMarksAt] leaves out are none of these.  A position at either end of
    a marked range is not inside it. *)
Theorem posIsInsideMarkedText_spec (d : Doc) (pos : Position) :
  posIsInsideMarkedText d pos <> Throw /\
  (posIsInsideMarkedText d pos = Normal true
   <-> exists m markFrom markTo,
         In m (markers d) /\ find m = Some (markFrom, markTo) /\
         indexFromPos d markFrom < indexFromPos d pos < indexFromPos d markTo).
Proof.
  split.
  { destruct (posIsInsideMarkedText_total d pos) as [b ->]. discriminate. }
  unfold posIsInsideMarkedText. split.
  - intros (m & f & t & Hin & Hm & Hr)%insideSomeMark_true.
    exists m, f, t. split; [|done]. unfold findMarksAt in Hin.
    by apply List.filter_In in Hin as [Hin _].
  - intros (m & f & t & Hin & Hm & Hr).
    by apply (posIsInsideMarkedText_intro d pos m f t).
Qed.

(** X7. [isMarkOrWhitespace] throws exactly on a position whose line is not
    a line of the document; [getHintRangeFromCursor] never hands it one. *)
Theorem isMarkOrWhitespace_throws_iff (d : Doc) (pos : Position) :
  (isMarkOrWhitespace d pos = Throw <-> ~ (0 <= line pos < size d)) /\
  (forall i, isMarkOrWhitespace d (posFromIndex d i) <> Throw).
Proof.
  split.
  - unfold isMarkOrWhitespace, getLine, size.
    destruct (Z.ltb_spec (line pos) 0) as [Hneg|Hpos]; [split; [lia|done]|].
    destruct (lines d !! Z.to_nat (line pos)) as [l|] eqn:Hl.
    + apply lookup_lt_Some in Hl. split; [|lia].
      destruct (isWhitespace _); [discriminate|].
      destruct (posIsInsideMarkedText_total d pos) as [b ->]. discriminate.
    + apply lookup_ge_None in Hl. split; [lia|done].
  - intros i. destruct (isMarkOrWhitespace_total d i) as [b ->]. discriminate.
Qed.

(** ** A bound on the scan *)

Lemma extendFrom_within d (n : nat) : forall p j,
  0 <= j -> indexFromPos d p - Z.of_nat n <= j <= Z.max 0 (indexFromPos d p - 1) ->
  isMarkOrWhitespace d (posFromIndex d j) = Normal true ->
  exists r, extendFrom (S n) d p = Some (Normal r).
Proof.
  induction n as [|n IH]; intros p j Hj0 Hj Hstop;
    pose proof (indexFromPos_range d p) as Hp; cbn [extendFrom];
    (destruct (isMarkOrWhitespace d (previousPosition d p)) as [[|]|] eqn:Hb;
     [ by exists p
     | | by destruct (isMarkOrWhitespace_total d (indexFromPos d p - 1)) as [? ?];
           unfold previousPosition in Hb; congruence ]).
  - rewrite previousPosition_clamped in Hb.
    replace (Z.max 0 (indexFromPos d p - 1)) with j in Hb by lia. congruence.
  - assert (j <> Z.max 0 (indexFromPos d p - 1)).
    { intros ->. rewrite previousPosition_clamped in Hb. congruence. }
    apply (IH (previousPosition d p) j); [done| |done].
    rewrite index_previousPosition. lia.
Qed.

Lemma extendTo_within d (n : nat) : forall p j,
  j <= docEnd d ->
  Z.min (docEnd d) (indexFromPos d p + 1) <= j <= indexFromPos d p + Z.of_nat n ->
  isMarkOrWhitespace d (posFromIndex d j) = Normal true ->
  exists r, extendTo (S n) d p = Some (Normal r).
Proof.
  induction n as [|n IH]; intros p j Hj0 Hj Hstop;
    pose proof (indexFromPos_range d p) as Hp; cbn [extendTo];
    (destruct (isMarkOrWhitespace d (nextPosition d p)) as [[|]|] eqn:Hb;
     [ by exists p
     | | by destruct (isMarkOrWhitespace_total d (indexFromPos d p + 1)) as [? ?];
           unfold nextPosition in Hb; congruence ]).
  - rewrite nextPosition_clamped in Hb.
    replace (Z.min (docEnd d) (indexFromPos d p + 1)) with j in Hb by lia. congruence.
  - assert (j <> Z.min (docEnd d) (indexFromPos d p + 1)).
    { intros ->. rewrite nextPosition_clamped in Hb. congruence. }
    apply (IH (nextPosition d p) j); [done| |done].
    rewrite index_nextPosition. lia.
Qed.

Lemma extendFrom_bounded d p (fuel : nat) r :
  extendFrom fuel d p = Some r -> extendFrom (scanBound d) d p = Some r.
Proof.
  intros Hr. destruct r as [r|]; [|by apply extendFrom_never_throws in Hr].
  pose proof (extendFrom_sound _ _ _ _ Hr) as (Hle & _ & _ & Hstop).
  pose proof (indexFromPos_range d p) as Hp. pose proof (indexFromPos_range d r) as Hrr.
  rewrite previousPosition_clamped in Hstop.
  destruct (extendFrom_within d (Z.to_nat (indexFromPos d p)) p
              (Z.max 0 (indexFromPos d r - 1)) ltac:(lia) ltac:(lia) Hstop) as [r' Hr'].
  apply (extendFrom_more_fuel _ (scanBound d - S (Z.to_nat (indexFromPos d p))) d p) in Hr' as Hb.
  replace (S (Z.to_nat (indexFromPos d p))
           + (scanBound d - S (Z.to_nat (indexFromPos d p))))%nat
    with (scanBound d) in Hb by (unfold scanBound; lia).
  pose proof (extendFrom_more_fuel _ (scanBound d) d p _ Hr) as Hr1.
  pose proof (extendFrom_more_fuel _ fuel d p _ Hb) as Hb1.
  rewrite Nat.add_comm in Hb1. congruence.
Qed.

Lemma extendTo_bounded d p (fuel : nat) r :
  extendTo fuel d p = Some r -> extendTo (scanBound d) d p = Some r.
Proof.
  intros Hr. destruct r as [r|]; [|by apply extendTo_never_throws in Hr].
  pose proof (extendTo_sound _ _ _ _ Hr) as (Hle & _ & _ & Hstop).
  pose proof (indexFromPos_range d p) as Hp. pose proof (indexFromPos_range d r) as Hrr.
  rewrite nextPosition_clamped in Hstop.
  assert (Hlt : Z.min (docEnd d) (indexFromPos d r + 1) < docEnd d).
  { destruct (Z.le_gt_cases (docEnd d) (indexFromPos d r + 1)); [|lia].
    replace (Z.min (docEnd d) (indexFromPos d r + 1)) with (docEnd d) in Hstop by lia.
    rewrite isMarkOrWhitespace_end in Hstop. discriminate. }
  destruct (extendTo_within d (Z.to_nat (docEnd d - indexFromPos d p)) p
              (Z.min (docEnd d) (indexFromPos d r + 1)) ltac:(lia) ltac:(lia) Hstop)
    as [r' Hr'].
  apply (extendTo_more_fuel _ (scanBound d - S (Z.to_nat (docEnd d - indexFromPos d p))) d p)
    in Hr' as Hb.
  replace (S (Z.to_nat (docEnd d - indexFromPos d p))
           + (scanBound d - S (Z.to_nat (docEnd d - indexFromPos d p))))%nat
    with (scanBound d) in Hb by (unfold scanBound; lia).
  pose proof (extendTo_more_fuel _ (scanBound d) d p _ Hr) as Hr1.
  pose proof (extendTo_more_fuel _ fuel d p _ Hb) as Hb1.
  rewrite Nat.add_comm in Hb1. congruence.
Qed.

End MoreDocFacts.

Section MoreHandlerFacts.

Implicit Types (d : Doc) (p : Position).

(** A position of the document is the position of its index. *)
Lemma posFromIndex_at d q (i : Z) :
  validPos d q -> indexFromPos d q = i -> posFromIndex d i = q.
Proof. intros Hq <-. rewrite pos_of_indexFromPos. by apply clipPos_id. Qed.

Lemma getBetween_same_line d (k : nat) l (a b : Z) :
  lines d !! k = Some l ->
  getBetween d (Pos (Z.of_nat k) a) (Pos (Z.of_nat k) b) = [sliceFrom (sliceTo l b) a].
Proof.
  intros Hl. unfold getBetween. cbn [line ch].
  replace (Z.to_nat (Z.of_nat k + 1 - Z.of_nat k)) with 1%nat by lia.
  rewrite Nat2Z.id, (drop_S _ _ _ Hl). cbn [take getBetweenIter line ch].
  by rewrite Z.eqb_refl.
Qed.

Lemma getBetween_line_break d (k : nat) l l' (a b : Z) :
  lines d !! k = Some l -> lines d !! S k = Some l' ->
  getBetween d (Pos (Z.of_nat k) a) (Pos (Z.of_nat (S k)) b)
  = [sliceFrom l a; sliceTo l' b].
Proof.
  intros Hl Hl'. unfold getBetween. cbn [line ch].
  replace (Z.to_nat (Z.of_nat (S k) + 1 - Z.of_nat k)) with 2%nat by lia.
  rewrite Nat2Z.id, (drop_S _ _ _ Hl), (drop_S _ _ _ Hl').
  cbn [take getBetweenIter line ch].
  rewrite Z.eqb_refl.
  destruct (Z.eqb_spec (Z.of_nat k) (Z.of_nat (S k))); [lia|].
  destruct (Z.eqb_spec (Z.of_nat k + 1) (Z.of_nat (S k))); [|lia].
  destruct (Z.eqb_spec (Z.of_nat k + 1) (Z.of_nat k)); [lia|done].
Qed.

(** X9. The text that the ['changes'] handler reads between the position
    before the cursor and the cursor is ["@"] exactly when the cursor's line
    holds an ["@"] in the column before the cursor.  At the start of a line
    it never is: there the step back crosses the line break, or stays at the
    start of the document. *)
Theorem text_before_cursor_is_at_sign (d : Doc) (cursor : Position) :
  let cur := clipPos d cursor in
  getRange d (previousPosition d cursor) cursor = units "@"
  <-> exists l, getLine d (line cur) = Some l /\ 1 <= ch cur /\
                charAt l (ch cur - 1) = Some 64.
Proof.
  cbn zeta. pose proof (clipPos_valid d cursor) as Hv.
  pose proof (indexFromPos_clip d cursor) as Hix.
  unfold getRange, previousPosition.
  rewrite (clipPos_id d (posFromIndex _ _)) by apply posFromIndex_valid.
  set (cur := clipPos d cursor) in *. clearbody cur.
  destruct cur as [L c]. destruct Hv as (l & Hl & Hn & Hc). cbn [line ch] in *.
  assert (HL : L = Z.of_nat (Z.to_nat L)) by lia.
  set (k := Z.to_nat L) in *. clearbody k. subst L.
  rewrite (indexFromPos_at d k l c Hl Hc) in Hix. rewrite <- Hix.
  assert (Hline : getLine d (Z.of_nat k) = Some l).
  { apply getLine_Some. rewrite Nat2Z.id. split; [lia|done]. }
  destruct (Z.le_gt_cases 1 c) as [Hpos|Hzero].
  - (* the previous position is on the cursor's line *)
    rewrite (posFromIndex_at d (Pos (Z.of_nat k) (c - 1))).
    2:{ apply validPos_at with l; [done|lia]. }
    2:{ rewrite (indexFromPos_at d _ l) by (done || lia). lia. }
    rewrite (getBetween_same_line d _ l) by done.
    cbn [join]. unfold sliceFrom, sliceTo, charAt.
    destruct (Z.ltb_spec (c - 1) 0); [lia|].
    replace (Z.to_nat c) with (S (Z.to_nat (c - 1))) by lia.
    destruct (l !! Z.to_nat (c - 1)) as [u|] eqn:Hu.
    + rewrite (take_S_r _ _ _ Hu), drop_app_length'.
      2:{ rewrite length_take. apply lookup_lt_Some in Hu. lia. }
      split.
      * intros [= ->]. exists l. auto.
      * intros (l0 & Hl0 & _ & Hu0). rewrite Hline in Hl0. injection Hl0 as <-.
        change (units "@") with [64]. congruence.
    + apply lookup_ge_None in Hu. unfold strlen in Hc. lia.
  - (* the cursor is at the start of its line *)
    split; [|intros (l0 & _ & ? & _); lia]. intros Hat. exfalso. revert Hat.
    assert (c = 0) as -> by lia.
    destruct k as [|k].
    + (* the start of the document: the step back stays *)
      rewrite posFromIndex_negative by (simpl; lia).
      change (Pos 0 0) with (Pos (Z.of_nat 0) 0).
      by rewrite (getBetween_same_line d 0 l).
    + (* the step back crosses the line break *)
      destruct (lookup_lt_is_Some_2 (lines d) k) as [l' Hl'].
      { apply lookup_lt_Some in Hl. lia. }
      pose proof (strlen_nonneg l').
      rewrite (posFromIndex_at d (Pos (Z.of_nat k) (strlen l'))).
      2:{ apply validPos_at with l'; [done|lia]. }
      2:{ rewrite (indexFromPos_at d _ l') by (done || lia).
          rewrite (offsetOfLine_step _ _ _ Hl'). lia. }
      rewrite (getBetween_line_break d k l' l) by done.
      cbn [join]. unfold sliceFrom, sliceTo, strlen.
      by rewrite Nat2Z.id, drop_all.
Qed.

(** X10. Running the ['cursorActivity'] handler a second time changes
    nothing: its result is a fixed point, so the marker is written, and
    [changed()] called, only when the condition has changed. *)
Theorem cursor_activity_idempotent (a a' : AuthorInput) :
  onCursorActivity a = Normal a' -> onCursorActivity a' = Normal a'.
Proof.
  unfold onCursorActivity at 1.
  destruct (label a) as [l|] eqn:Hl, (placeholder a) as [p|] eqn:Hp;
    try (intros [= <-]; unfold onCursorActivity; by rewrite ?Hl, ?Hp).
  destruct (markers (doc a) !! l) as [lm|] eqn:Hlm; [|discriminate].
  destruct (markers (doc a) !! p) as [pm|] eqn:Hpm; [|discriminate].
  destruct (find lm) as [lr|] eqn:Hlr; [|discriminate].
  destruct (find pm) as [pr|] eqn:Hpr; [|discriminate].
  set (collapse := negb (indexFromPos (doc a) (snd lr) =? indexFromPos (doc a) (fst pr))).
  case_bool_decide as Hchanged.
  - intros [= <-]. unfold onCursorActivity, withMarkers.
    cbn [label placeholder doc markers]. rewrite Hl, Hp.
    pose proof (lookup_lt_Some _ _ _ Hpm) as Hlen.
    rewrite (list_lookup_insert_eq (markers (doc a)) p) by done.
    assert (Hlm' : exists lm', <[p:=setCollapsed collapse pm]> (markers (doc a)) !! l = Some lm'
                               /\ find lm' = Some lr).
    { destruct (decide (l = p)) as [->|Hne].
      - exists (setCollapsed collapse pm). rewrite list_lookup_insert_eq by done.
        split; [done|]. cbn [setCollapsed find]. congruence.
      - exists lm. by rewrite list_lookup_insert_ne. }
    destruct Hlm' as (lm' & -> & ->). cbn [setCollapsed find collapsed]. rewrite Hpr.
    set (d' := {| firstLine := _; moreLines := _; markers := _ |}).
    rewrite !(indexFromPos_lines d' (doc a)) by done. fold collapse.
    rewrite bool_decide_eq_false_2; [reflexivity|]. intros Hne. by apply Hne.
  - intros [= <-]. unfold onCursorActivity. rewrite Hl, Hp, Hlm, Hpm, Hlr, Hpr.
    fold collapse. rewrite bool_decide_eq_false_2; [reflexivity|]. intros Hne. by apply Hne.
Qed.

End MoreHandlerFacts.

Section MoreScanFacts.

Implicit Types (d : Doc) (p : Position).

Lemma getHintRangeFromCursor_bounded d cursor (fuel : nat) r :
  getHintRangeFromCursor fuel d cursor = Some r ->
  getHintRangeFromCursor (scanBound d) d cursor = Some r.
Proof.
  unfold getHintRangeFromCursor.
  destruct (extendFrom fuel d cursor) as [f|] eqn:Hf; [|discriminate].
  rewrite (extendFrom_bounded d cursor fuel f Hf). destruct f as [f|]; [|done].
  destruct (extendTo fuel d cursor) as [t|] eqn:Ht; [|discriminate].
  by rewrite (extendTo_bounded d cursor fuel t Ht).
Qed.

(** X8. The length of the document bounds the scan: a result that any
    number of tests of the loop conditions gives is given by one test per
    index of the document and one more, for each loop; a scan that has not
    returned by then never returns. *)
Theorem hint_range_scan_bounded (d : Doc) (cursor : Position) (fuel : nat)
    (r : Completion HintRange) :
  getHintRangeFromCursor fuel d cursor = Some r ->
  getHintRangeFromCursor (S (Z.to_nat (docEnd d))) d cursor = Some r.
Proof. apply getHintRangeFromCursor_bounded. Qed.

Lemma getHintRangeFromCursor_parts (fuel : nat) d cursor r :
  getHintRangeFromCursor fuel d cursor = Some (Normal r) ->
  extendFrom fuel d cursor = Some (Normal (from r)) /\
  extendTo fuel d cursor = Some (Normal (to r)).
Proof.
  unfold getHintRangeFromCursor.
  destruct (extendFrom fuel d cursor) as [[f|]|]; try discriminate.
  destruct (extendTo fuel d cursor) as [[t|]|]; try discriminate.
  by intros [= <-].
Qed.

(** X11. The hint range does not move with the cursor: when the cursor's
    own position is no stop either, the scan from any position of the range
    returns, and returns a range with the same two ends. *)
Theorem hint_range_same_from_inside (d : Doc) (cursor other : Position) (fuel : nat)
    (r : HintRange) :
  getHintRangeFromCursor fuel d cursor = Some (Normal r) ->
  isMarkOrWhitespace d (posFromIndex d (indexFromPos d cursor)) = Normal false ->
  indexFromPos d (from r) <= indexFromPos d other <= indexFromPos d (to r) ->
  exists r', getHintRangeFromCursor (S (Z.to_nat (docEnd d))) d other = Some (Normal r') /\
             indexFromPos d (from r') = indexFromPos d (from r) /\
             indexFromPos d (to r') = indexFromPos d (to r).
Proof.
  intros Hr Hcur Hother.
  destruct (getHintRangeFromCursor_parts _ _ _ _ Hr) as [Hf Ht].
  apply extendFrom_sound in Hf as (Hf1 & _ & Hf3 & Hf4).
  apply extendTo_sound in Ht as (Ht1 & _ & Ht3 & Ht4).
  assert (Hrun : forall j, indexFromPos d (from r) <= j <= indexFromPos d (to r) ->
                           isMarkOrWhitespace d (posFromIndex d j) = Normal false).
  { intros j Hj. destruct (Z.lt_trichotomy j (indexFromPos d cursor)) as [?|[->|?]];
      [apply Hf3; lia|done|apply Ht3; lia]. }
  unfold previousPosition in Hf4. unfold nextPosition in Ht4.
  destruct (getHintRangeFromCursor_terminates d other
              (indexFromPos d (from r) - 1) (indexFromPos d (to r) + 1))
    as (fuel' & r' & Hr'); [lia|done|lia|done|].
  exists r'. split; [by apply (getHintRangeFromCursor_bounded d other fuel')|].
  destruct (getHintRangeFromCursor_parts _ _ _ _ Hr') as [Hf' Ht'].
  apply extendFrom_sound in Hf' as (Hf1' & _ & Hf3' & Hf4').
  apply extendTo_sound in Ht' as (Ht1' & _ & Ht3' & Ht4').
  unfold previousPosition in Hf4'. unfold nextPosition in Ht4'.
  split.
  - destruct (Z.lt_trichotomy (indexFromPos d (from r')) (indexFromPos d (from r)))
      as [Hlt|[?|Hgt]]; [exfalso|done|exfalso].
    + specialize (Hf3' (indexFromPos d (from r) - 1) ltac:(lia)). congruence.
    + specialize (Hrun (indexFromPos d (from r') - 1) ltac:(lia)). congruence.
  - destruct (Z.lt_trichotomy (indexFromPos d (to r')) (indexFromPos d (to r)))
      as [Hlt|[?|Hgt]]; [exfalso|done|exfalso].
    + specialize (Hrun (indexFromPos d (to r') + 1) ltac:(lia)). congruence.
    + specialize (Ht3' (indexFromPos d (to r) + 1) ltac:(lia)). congruence.
Qed.

(** X12. In a document of the component, with the cursor between the label
    and the placeholder, the scan returns, and the range it returns lies
    within the entered text: a completion never replaces a part of the label
    or of the placeholder. *)
Theorem hint_range_within_entered_text (body : jsstring) (handles : list ActualTextMarker)
    (cursor : Position) :
  let d := authorDoc body handles in
  strlen labelText <= indexFromPos d cursor <= strlen labelText + strlen body ->
  (exists r, getHintRangeFromCursor (S (Z.to_nat (docEnd d))) d cursor = Some (Normal r)) /\
  (forall fuel r, getHintRangeFromCursor fuel d cursor = Some (Normal r) ->
     strlen labelText <= indexFromPos d (from r) /\
     indexFromPos d (to r) <= strlen labelText + strlen body).
Proof.
  cbn zeta. change (strlen labelText) with 11. intros Hc.
  pose proof (authorDoc_label_stops body handles) as Hlabel.
  pose proof (authorDoc_placeholder_stops body handles) as Hplaceholder.
  split.
  - destruct (getHintRangeFromCursor_terminates (authorDoc body handles) cursor
                10 (12 + strlen body)) as (fuel & r & Hr); [lia|done|lia|done|].
    exists r. by apply (getHintRangeFromCursor_bounded _ cursor fuel).
  - intros fuel r Hr.
    destruct (getHintRangeFromCursor_parts _ _ _ _ Hr) as [Hf Ht].
    apply extendFrom_sound in Hf as (Hf1 & _ & Hf3 & _).
    apply extendTo_sound in Ht as (Ht1 & _ & Ht3 & _).
    split.
    + destruct (Z.le_gt_cases 11 (indexFromPos (authorDoc body handles) (from r)));
        [done|exfalso].
      specialize (Hf3 10 ltac:(lia)). congruence.
    + destruct (Z.le_gt_cases (indexFromPos (authorDoc body handles) (to r))
                              (11 + strlen body)); [done|exfalso].
      specialize (Ht3 (12 + strlen body) ltac:(lia)). congruence.
Qed.

End MoreScanFacts.

(** ** The [hint] option *)

Section HintFacts.

Lemma findUserProvider_first providers p :
  findUserProvider providers = Some p ->
  kind p = "user"%string /\
  exists before after, providers = before ++ p :: after /\
                       Forall (fun q => kind q <> "user"%string) before.
Proof.
  unfold findUserProvider. induction providers as [|q providers IH]; cbn [List.find];
    [discriminate|].
  destruct (String.eqb_spec (kind q) "user") as [Hq|Hq].
  - intros [= <-]. split; [done|]. by exists [], providers.
  - intros (Hp & before & after & -> & Hb)%IH. split; [done|].
    exists (q :: before), after. split; [done|]. by constructor.
Qed.

(** X13. What [hint] returns.  The range is the one the scan found.  Every
    suggestion is an ["@"] followed by the user name, so that the needle read
    back from an accepted suggestion is the user name itself.  And a
    suggestion is made only when the first provider of kind ['user'], in the
    order of the props, is a [UserAutocompletionProvider]; the suggestions
    are then its answer to the word at the cursor without one leading
    ["@"], in its order. *)
Theorem hint_suggestions (providers : list IAutocompletionProvider) (fuel : nat)
    (a : AuthorInput) (hs : Hints) :
  hint providers fuel a = Some (Normal hs) ->
  getHintRangeFromCursor fuel (doc a) (getCursor a) = Some (Normal (hintRange hs)) /\
  Forall (fun h => text h = 64 :: hintUsername h /\ stripAt (text h) = hintUsername h)
         (hintList hs) /\
  (hintList hs <> [] ->
   exists before p after hits,
     providers = before ++ p :: after /\
     Forall (fun q => kind q <> "user"%string) before /\
     kind p = "user"%string /\ isUserAutocompletionProvider p = true /\
     getAutocompletionItems p
       (stripAt (getRange (doc a) (from (hintRange hs)) (to (hintRange hs)))) = Normal hits /\
     map hintUsername (hintList hs) = map username hits /\
     map hintName (hintList hs) = map name hits).
Proof.
  unfold hint.
  destruct (getHintRangeFromCursor fuel (doc a) (getCursor a)) as [[r|]|]; try discriminate.
  destruct (findUserProvider providers) as [p|] eqn:Hp.
  2:{ intros [= <-]. cbn [hintList hintRange]. by repeat split. }
  destruct (isUserAutocompletionProvider p) eqn:Huser.
  2:{ intros [= <-]. cbn [hintList hintRange]. by repeat split. }
  destruct (getAutocompletionItems p _) as [hits|] eqn:Hhits; [|discriminate].
  intros [= <-]. cbn [hintList hintRange]. split; [done|]. split.
  - apply List.Forall_forall. intros h (hit & <- & _)%List.in_map_iff. by cbn.
  - intros _. destruct (findUserProvider_first _ _ Hp) as (Hk & before & after & -> & Hb).
    exists before, p, after, hits. rewrite !List.map_map. cbn [hintUsername hintName].
    by repeat split.
Qed.

End HintFacts.

(** ** Resizing *)

Section ResizeFacts.

Lemma filter_out_one (id : Z) (l : list Z) :
  NoDup l -> id ∈ l ->
  S (length (List.filter (fun f => negb (f =? id)) l)) = length l.
Proof.
  induction 1 as [|x l Hx Hnd IH]; [by intros ?%elem_of_nil|].
  rewrite elem_of_cons. cbn [List.filter length].
  destruct (Z.eqb_spec x id) as [->|Hne]; cbn [negb length].
  - intros _. f_equal.
    assert (Hall : forall y, In y l -> negb (y =? id) = true).
    { intros y Hy. destruct (Z.eqb_spec y id) as [->|]; [|done].
      by apply list_elem_of_In in Hy. }
    clear -Hall. induction l as [|y l IH]; [done|]. cbn [List.filter].
    rewrite (Hall y) by by left. cbn [length]. f_equal. apply IH.
    intros z Hz. apply Hall. by right.
  - intros [?|Hin]; [congruence|]. f_equal. by apply IH.
Qed.

Lemma filter_out_sub (id : Z) (l : list Z) x :
  x ∈ List.filter (fun f => negb (f =? id)) l -> x ∈ l.
Proof. rewrite !list_elem_of_In. by intros [? _]%List.filter_In. Qed.

Lemma filter_out_NoDup (id : Z) (l : list Z) :
  NoDup l -> NoDup (List.filter (fun f => negb (f =? id)) l).
Proof.
  induction 1 as [|x l Hx Hnd IH]; [constructor|]. cbn [List.filter].
  destruct (negb (x =? id)); [|done]. constructor; [|done].
  intros Hin. by apply Hx, filter_out_sub with id.
Qed.

Lemma count_app {A} (f : A -> bool) (l l' : list A) :
  count f (l ++ l') = (count f l + count f l')%nat.
Proof. unfold count. by rewrite List.filter_app, length_app. Qed.

Lemma resizeStep_inv ev s s' effects :
  resizeInv s -> resizeStep ev s = Some (s', effects) ->
  resizeInv s' /\
  (forall id, ~ In (CancelAnimationFrame id) effects) /\
  (length (frames s') + (if isFrameRun ev then 1 else 0)
   = length (frames s) + count isRequest effects)%nat /\
  (count isRefresh effects <= (if isFrameRun ev then 1 else 0))%nat.
Proof.
  intros (Hid & Hnd & Hlt) Hstep. destruct ev as [entries|id|elem]; cbn [resizeStep] in Hstep.
  - revert Hstep. unfold onResizeObserved. rewrite Hid.
    destruct ((1 <=? entries)%nat && editorSet s); intros [= <- <-]; unfold resizeInv;
      cbn [fst snd frames nextFrame resizeDebounceId app isFrameRun].
    + split; [|split; [|split]].
      * split; [done|]. split.
        -- apply NoDup_app. split; [done|]. split; [|apply NoDup_singleton].
           intros f Hf ->%list_elem_of_singleton. specialize (Hlt _ Hf). lia.
        -- intros f [Hf| ->%list_elem_of_singleton]%elem_of_app; [specialize (Hlt _ Hf)|]; lia.
      * cbn. intros id [?|[]]. discriminate.
      * rewrite length_app. cbn. lia.
      * cbn. lia.
    + split; [by repeat split|]. split; [by intros id ?|]. cbn. lia.
  - case_bool_decide as Hin; [|discriminate]. revert Hstep.
    unfold onResized. intros [= <- <-]. unfold resizeInv. cbn [frames nextFrame resizeDebounceId editorSet isFrameRun].
    split; [|split; [|split]].
    + split; [done|]. split; [by apply filter_out_NoDup|].
      intros f Hf. by apply Hlt, filter_out_sub with id.
    + intros id'. destruct (editorSet s); cbn; [intros [?|[]]; discriminate|intros []].
    + pose proof (filter_out_one id (frames s) Hnd Hin).
      destruct (editorSet s); cbn; lia.
    + destruct (editorSet s); cbn; lia.
  - revert Hstep. unfold onContainerRef. intros [= <- <-].
    cbn. split; [by repeat split|]. split; [by intros id ?|]. lia.
Qed.

Lemma resizeRun_inv evs : forall s s' effects,
  resizeInv s -> resizeRun evs s = Some (s', effects) ->
  resizeInv s' /\
  (forall id, ~ In (CancelAnimationFrame id) effects) /\
  (length (frames s') + count isFrameRun evs
   = length (frames s) + count isRequest effects)%nat /\
  (count isRefresh effects <= count isFrameRun evs)%nat.
Proof.
  induction evs as [|ev evs IH]; intros s s' effects Hinv; cbn [resizeRun].
  - intros [= <- <-]. split; [done|]. split; [by intros id ?|]. cbn. lia.
  - destruct (resizeStep ev s) as [[s1 e1]|] eqn:Hstep; [|discriminate].
    destruct (resizeRun evs s1) as [[s2 e2]|] eqn:Hrun; [|discriminate].
    intros [= <- <-].
    destruct (resizeStep_inv _ _ _ _ Hinv Hstep) as (Hinv1 & Hc1 & Hn1 & Hr1).
    destruct (IH _ _ _ Hinv1 Hrun) as (Hinv2 & Hc2 & Hn2 & Hr2).
    split; [done|]. split.
    + intros id [?|?]%List.in_app_or; [by apply (Hc1 id)|by apply (Hc2 id)].
    + assert (Hcons : count isFrameRun (ev :: evs)
                      = ((if isFrameRun ev then 1 else 0) + count isFrameRun evs)%nat).
      { unfold count. cbn [List.filter]. by destruct (isFrameRun ev). }
      rewrite Hcons, !count_app. lia.
Qed.

(** X14. [resizeDebounceId] is never set, so no animation frame is ever
    cancelled: every frame requested is awaited or has run, and the editor
    is refreshed at most once for each frame that ran. *)
Theorem resize_never_debounces (evs : list ResizeEvent) (s : Resizing)
    (effects : list ResizeEffect) :
  resizeRun evs constructed = Some (s, effects) ->
  resizeDebounceId s = None /\
  (forall id, ~ In (CancelAnimationFrame id) effects) /\
  count isRequest effects = (length (frames s) + count isFrameRun evs)%nat /\
  (count isRefresh effects <= count isFrameRun evs)%nat.
Proof.
  intros Hrun.
  assert (Hinv : resizeInv constructed).
  { split; [done|]. split; [constructor|]. by intros f ?%elem_of_nil. }
  destruct (resizeRun_inv evs _ _ _ Hinv Hrun) as ((Hid & _) & Hcancel & Hcount & Hrefresh).
  cbn [constructed frames length] in Hcount. repeat split; [done|done|lia|done].
Qed.

(** X15. Notifications are not merged: while the editor is set, a burst of
    notifications with entries requests one frame each, whatever frames are
    awaited already. *)
Theorem resize_burst_requests_every_frame (evs : list ResizeEvent) (s : Resizing) :
  Forall (fun ev => exists n, ev = Observed (S n)) evs ->
  editorSet s = true -> resizeDebounceId s = None ->
  exists s' effects,
    resizeRun evs s = Some (s', effects) /\
    length (frames s') = (length (frames s) + length evs)%nat /\
    count isRequest effects = length evs /\
    editorSet s' = true /\ resizeDebounceId s' = None.
Proof.
  intros Hevs. revert s. induction Hevs as [|ev evs [n ->] _ IH]; intros s Hed Hid.
  - exists s, []. cbn. repeat split; (done || lia).
  - cbn [resizeRun resizeStep]. unfold onResizeObserved. rewrite Hed, Hid.
    cbn [Nat.leb andb app].
    set (s1 := {| editorSet := editorSet s; resizeDebounceId := resizeDebounceId s;
                  frames := frames s ++ [nextFrame s]; nextFrame := nextFrame s + 1 |}).
    destruct (IH s1 Hed Hid) as (s' & effects & -> & Hlen & Hcount & Hed' & Hid').
    exists s', (RequestAnimationFrame (nextFrame s) :: effects).
    split; [done|]. subst s1. cbn [frames] in Hlen. rewrite length_app in Hlen.
    split; [cbn [length] in *; lia|]. split; [|done].
    unfold count in *. cbn [List.filter isRequest length]. by rewrite Hcount.
Qed.

End ResizeFacts.


(* ===================================================================== *)
(** * Part VIII. More worked examples                                     *)
(* ===================================================================== *)


(** The check in flight was asked about the home directory's [a]. *)
Lemma suspended_checks_distinct_and_current_witness :
  @reachable exampleEnvironment inFlight inFlightComponent /\
  forall k, k ∈ suspended inFlightComponent ->
            pendingToken k = checkGitRepositoryToken inFlightComponent ->
            pendingPath k = "/home/ada/a"%string.
Proof.
  assert (Hreach : @reachable exampleEnvironment inFlight inFlightComponent)
    by (by apply reachable_run).
  split; [exact Hreach|].
  destruct (@suspended_checks_distinct_and_current exampleEnvironment _ _ Hreach)
    as (_ & _ & _ & Hpath).
  exact Hpath.
Defined.

(** The overtaken check resolves late: the verdict of the newer one stays. *)
Lemma settled_state_is_stable_witness :
  @fireAll exampleEnvironment [CheckResolved 1 false] newerResolvedComponent
    = Some {| state := state newerResolvedComponent; checkGitRepositoryToken := 2;
              suspended := [] |} /\
  isGitRepository (state newerResolvedComponent) = Some true.
Proof.
  split; [reflexivity|].
  assert (Hstale : forall k, k ∈ suspended newerResolvedComponent ->
                             pendingToken k <> checkGitRepositoryToken newerResolvedComponent).
  { intros k [->|Hk%elem_of_nil]%elem_of_cons; [discriminate|done]. }
  assert (Hevs : Forall (fun ev => isCompletion ev = true) [CheckResolved 1 false])
    by (by repeat constructor).
  destruct (@settled_state_is_stable exampleEnvironment newerResolvedComponent
              [CheckResolved 1 false]
              {| state := state newerResolvedComponent; checkGitRepositoryToken := 2;
                 suspended := [] |}
              Hstale Hevs eq_refl) as [Hstate _].
  by rewrite <- Hstate.
Defined.

(** The scan of the typed document returns within its bound. *)
Lemma hint_range_scan_bounded_witness :
  getHintRangeFromCursor 20 typedDoc (Pos 0 12) = Some (Normal typedRange) /\
  getHintRangeFromCursor (S (Z.to_nat (docEnd typedDoc))) typedDoc (Pos 0 12)
  = Some (Normal typedRange).
Proof.
  split; [reflexivity|].
  exact (hint_range_scan_bounded typedDoc (Pos 0 12) 20 (Normal typedRange) eq_refl).
Defined.

(** After one run on the typed document a second run changes nothing. *)
Lemma cursor_activity_idempotent_witness :
  exists a', onCursorActivity typed = Normal a' /\ onCursorActivity a' = Normal a'.
Proof.
  eexists. split; [reflexivity|].
  exact (cursor_activity_idempotent typed _ eq_refl).
Defined.

(** From the end of ["@fo"] the scan finds the same range as from inside. *)
Lemma hint_range_same_from_inside_witness :
  exists r', getHintRangeFromCursor (S (Z.to_nat (docEnd typedDoc))) typedDoc (Pos 0 14)
             = Some (Normal r') /\
             indexFromPos typedDoc (from r') = indexFromPos typedDoc (from typedRange) /\
             indexFromPos typedDoc (to r') = indexFromPos typedDoc (to typedRange).
Proof.
  apply (hint_range_same_from_inside typedDoc (Pos 0 12) (Pos 0 14) 20 typedRange);
    [reflexivity|reflexivity|].
  split; discriminate.
Defined.

(** The range of ["@fo"] starts after the label and ends before the
    placeholder. *)
Lemma hint_range_within_entered_text_witness :
  strlen labelText <= indexFromPos typedDoc (from typedRange) /\
  indexFromPos typedDoc (to typedRange) <= strlen labelText + strlen (units "@fo").
Proof.
  assert (Hc : strlen labelText
               <= indexFromPos (authorDoc (units "@fo") []) (Pos 0 12)
               <= strlen labelText + strlen (units "@fo")) by (split; discriminate).
  destruct (hint_range_within_entered_text (units "@fo") [] (Pos 0 12) Hc) as [_ Hin].
  exact (Hin 20%nat typedRange eq_refl).
Defined.

(** The provider's user is suggested for ["@fo"]. *)
Lemma hint_suggestions_witness :
  hint [foxProvider] 20 typed = Some (Normal foxHints) /\
  getHintRangeFromCursor 20 (doc typed) (getCursor typed) = Some (Normal typedRange) /\
  Forall (fun h => text h = 64 :: hintUsername h /\ stripAt (text h) = hintUsername h)
         (hintList foxHints).
Proof.
  assert (Hrun : hint [foxProvider] 20 typed = Some (Normal foxHints))
    by (vm_compute; reflexivity).
  split; [exact Hrun|].
  destruct (hint_suggestions [foxProvider] 20 typed foxHints Hrun) as (Hrange & Htext & _).
  split; [exact Hrange|exact Htext].
Defined.

(** Two notifications, two frames, two refreshes, nothing cancelled. *)
Lemma resize_never_debounces_witness :
  exists s effects,
    resizeRun twoResizes constructed = Some (s, effects) /\
    count isRequest effects = 2%nat /\
    forall id, ~ In (CancelAnimationFrame id) effects.
Proof.
  eexists _, _. split; [reflexivity|].
  destruct (resize_never_debounces twoResizes _ _ eq_refl) as (_ & Hcancel & _ & _).
  split; [reflexivity|exact Hcancel].
Defined.

(** Two notifications in a row leave two frames to run. *)
Lemma resize_burst_requests_every_frame_witness :
  exists s' effects,
    resizeRun [Observed 1; Observed 3] (onContainerRef true constructed) = Some (s', effects) /\
    length (frames s') = 2%nat.
Proof.
  destruct (resize_burst_requests_every_frame [Observed 1; Observed 3]
              (onContainerRef true constructed)) as (s' & effects & Hrun & Hlen & _).
  - repeat constructor; by eexists.
  - reflexivity.
  - reflexivity.
  - by exists s', effects.
Defined.
